(** * Beat-Storm: the playback scheduler of the [Home] component

    A shallow embedding of the audio part of the page component
    ([cleanupAudio], [initializeAudio], [generateBeat],
    [setupSynthsAndSchedule], [togglePlayback], [downloadBeat]) together
    with the small part of Tone.js, React and the DOM that these handlers
    drive, followed by the properties of the scheduler.

    Modelling conventions.
    - A JavaScript number holding seconds or a velocity is a rational [Q]:
      every finite double is a rational, and the only numeric operations
      the handlers perform on them are comparison and [Math.max], which
      are exact.  Channel numbers, MIDI pitches and the tempo are [Z].
    - A handler is a computation in the monad [M]: it threads the whole
      observable world and may throw.  An [await] is sequencing; the value
      a promise settles to is supplied by the environment as an argument.
      [generateBeat] is given a second time cut at its awaits, for the
      runs that overlap; run through without interruption the two agree.
    - A React state setter writes the component state at once.
    - A sound-producing object is identified by the [const] it was bound
      to and by the run of [setupSynthsAndSchedule] that created it. *)

From Stdlib Require Import ZArith QArith Bool List String Ascii Lia.
From Stdlib Require Import DecimalString.
Import ListNotations.

Local Open Scope string_scope.
Local Open Scope Z_scope.

(** ** The parsed score ([Midi] of [@tonejs/midi]) *)

Record Note := mkNote {
  midi : Z;            (* pitch number *)
  name : string;       (* pitch spelling, e.g. "C2" *)
  velocity : Q;
  time : Q;            (* start, seconds from the beginning of the score *)
  duration : Q         (* seconds *)
}.

Record Track := mkTrack {
  channel : Z;
  notes : list Note
}.

Record Midi := mkMidi {
  tracks : list Track
}.

Definition all_notes (m : Midi) : list Note :=
  flat_map notes (tracks m).

Definition note_end (n : Note) : Q := (time n + duration n)%Q.

(** [Math.max] on two finite numbers. *)
Definition Math_max (x y : Q) : Q :=
  match (x ?= y)%Q with
  | Lt => y
  | _ => x
  end.

Fixpoint maximum (x : Q) (l : list Q) : Q :=
  match l with
  | [] => x
  | y :: l' => maximum (Math_max x y) l'
  end.

(** Modelled from the spec: the getter [Midi.duration] belongs to the
    [@tonejs/midi] package and is not part of the sources; the data model
    gives it as "max over all notes of (startTime+duration)".  A score
    without notes gets 0. *)
Definition Midi_duration (m : Midi) : Q :=
  match map note_end (all_notes m) with
  | [] => 0%Q
  | e :: es => maximum e es
  end.

(** ** The voices *)

(** The six [const]s of [setupSynthsAndSchedule]. *)
Inductive Voice :=
| drumSynth | hatSynth | bassSynth | melodySynth | snareSynth | chordSynth.

(** A synth object: the constant it is bound to and the run of
    [setupSynthsAndSchedule] that constructed it. *)
Record Synth := mkSynth {
  synth_voice : Voice;
  synth_session : nat
}.

(** One call [synth.triggerAttackRelease(...)].  [call_note] is the
    leading note argument; the three-argument form used for the noise
    synth has none. *)
Record Call := mkCall {
  call_synth : Synth;
  call_note : option string;
  call_duration : Q;
  call_time : Q;
  call_velocity : Q
}.

(** The closure handed to [Tone.Transport.schedule]: it captures the
    synth constants of its run, [track] and [note]. *)
Record Callback := mkCallback {
  cb_session : nat;
  cb_track : Track;
  cb_note : Note
}.

Definition min_hat_duration : Q := 3 # 100.

(** The body of the scheduled arrow function, lines 153-163. *)
Definition callback (cb : Callback) (t : Q) : Call :=
  let track := cb_track cb in
  let note := cb_note cb in
  let synth v := mkSynth v (cb_session cb) in
  if channel track =? 9 then
    if midi note =? 36 then
      mkCall (synth drumSynth) (Some (name note)) (duration note) t (velocity note)
    else if (midi note =? 42) || (midi note =? 46) then
      let dur := Math_max (duration note) min_hat_duration in
      mkCall (synth hatSynth) (Some (name note)) dur t (velocity note)
    else
      mkCall (synth snareSynth) None (duration note) t (velocity note)
  else if channel track =? 0 then
    mkCall (synth bassSynth) (Some (name note)) (duration note) t (velocity note)
  else if channel track =? 2 then
    mkCall (synth chordSynth) (Some (name note)) (duration note) t (velocity note)
  else
    mkCall (synth melodySynth) (Some (name note)) (duration note) t (velocity note).

(** The voice a note of a track is sent to. *)
Definition route (track : Track) (note : Note) : Voice :=
  synth_voice (call_synth (callback (mkCallback 0 track note) 0%Q)).

(** *** The routing table as the specification words it *)

Inductive VoiceKind := Kick | HiHat | Bass | Melody | Snare | Chord.

(** The comments above the six constructors in the source name the kinds. *)
Definition kind (v : Voice) : VoiceKind :=
  match v with
  | drumSynth => Kick
  | hatSynth => HiHat
  | bassSynth => Bass
  | melodySynth => Melody
  | snareSynth => Snare
  | chordSynth => Chord
  end.

(** Follows the table of section 4.1 row by row. *)
Definition routing_table (channelId pitch : Z) : VoiceKind :=
  match channelId, pitch with
  | 9, 36 => Kick
  | 9, 42 => HiHat
  | 9, 46 => HiHat
  | 9, _ => Snare
  | 0, _ => Bass
  | 2, _ => Chord
  | _, _ => Melody
  end.

(** ** The world the handlers act on *)

Inductive PlaybackState := started | stopped | paused.

(** An entry of the transport's timeline. *)
Record ScheduledEvent := mkEvent {
  ev_id : nat;
  ev_time : Q;
  ev_callback : Callback
}.

Definition Blob := list Byte.byte.

(** The [<a>] element [downloadBeat] builds and clicks. *)
Record Anchor := mkAnchor {
  href : string;
  download : string
}.

Record World := mkWorld {
  selectedStyle : string;   (* React state of [Home] *)
  bpm : Z;
  bars : Z;
  includeChords : bool;
  isGenerating : bool;
  isPlaying : bool;
  isBeatReady : bool;
  midiUrl : option string;
  songTitle : option string;
  synths_current : list Synth;   (* the ref [synths.current] *)
  context_running : bool;   (* Tone: the audio context was resumed *)
  Transport_state : PlaybackState;
  Transport_bpm : Z;
  Transport_loop : bool;
  Transport_loopStart : Q;
  Transport_loopEnd : Q;
  Transport_timeline : list ScheduledEvent;
  Transport_eventId : nat;   (* id of the next scheduled event *)
  sessions : nat;   (* runs of [setupSynthsAndSchedule] so far *)
  disposed : list Synth;   (* the [dispose()] calls, oldest first *)
  objectURLs : list (string * Blob);   (* browser: object URLs, newest first *)
  console : list string;
  alerts : list string;
  downloads : list Anchor   (* anchors clicked, oldest first *)
}.

(** Field updates. *)

Definition set_selectedStyle (x : string) (w : World) : World :=
  mkWorld x (bpm w) (bars w) (includeChords w) (isGenerating w)
    (isPlaying w) (isBeatReady w) (midiUrl w) (songTitle w)
    (synths_current w) (context_running w) (Transport_state w)
    (Transport_bpm w) (Transport_loop w) (Transport_loopStart w)
    (Transport_loopEnd w) (Transport_timeline w) (Transport_eventId w)
    (sessions w) (disposed w) (objectURLs w) (console w) (alerts w)
    (downloads w).

Definition set_bpm (x : Z) (w : World) : World :=
  mkWorld (selectedStyle w) x (bars w) (includeChords w) (isGenerating w)
    (isPlaying w) (isBeatReady w) (midiUrl w) (songTitle w)
    (synths_current w) (context_running w) (Transport_state w)
    (Transport_bpm w) (Transport_loop w) (Transport_loopStart w)
    (Transport_loopEnd w) (Transport_timeline w) (Transport_eventId w)
    (sessions w) (disposed w) (objectURLs w) (console w) (alerts w)
    (downloads w).

Definition set_bars (x : Z) (w : World) : World :=
  mkWorld (selectedStyle w) (bpm w) x (includeChords w) (isGenerating w)
    (isPlaying w) (isBeatReady w) (midiUrl w) (songTitle w)
    (synths_current w) (context_running w) (Transport_state w)
    (Transport_bpm w) (Transport_loop w) (Transport_loopStart w)
    (Transport_loopEnd w) (Transport_timeline w) (Transport_eventId w)
    (sessions w) (disposed w) (objectURLs w) (console w) (alerts w)
    (downloads w).

Definition set_includeChords (x : bool) (w : World) : World :=
  mkWorld (selectedStyle w) (bpm w) (bars w) x (isGenerating w)
    (isPlaying w) (isBeatReady w) (midiUrl w) (songTitle w)
    (synths_current w) (context_running w) (Transport_state w)
    (Transport_bpm w) (Transport_loop w) (Transport_loopStart w)
    (Transport_loopEnd w) (Transport_timeline w) (Transport_eventId w)
    (sessions w) (disposed w) (objectURLs w) (console w) (alerts w)
    (downloads w).

Definition set_isGenerating (x : bool) (w : World) : World :=
  mkWorld (selectedStyle w) (bpm w) (bars w) (includeChords w) x
    (isPlaying w) (isBeatReady w) (midiUrl w) (songTitle w)
    (synths_current w) (context_running w) (Transport_state w)
    (Transport_bpm w) (Transport_loop w) (Transport_loopStart w)
    (Transport_loopEnd w) (Transport_timeline w) (Transport_eventId w)
    (sessions w) (disposed w) (objectURLs w) (console w) (alerts w)
    (downloads w).

Definition set_isPlaying (x : bool) (w : World) : World :=
  mkWorld (selectedStyle w) (bpm w) (bars w) (includeChords w)
    (isGenerating w) x (isBeatReady w) (midiUrl w) (songTitle w)
    (synths_current w) (context_running w) (Transport_state w)
    (Transport_bpm w) (Transport_loop w) (Transport_loopStart w)
    (Transport_loopEnd w) (Transport_timeline w) (Transport_eventId w)
    (sessions w) (disposed w) (objectURLs w) (console w) (alerts w)
    (downloads w).

Definition set_isBeatReady (x : bool) (w : World) : World :=
  mkWorld (selectedStyle w) (bpm w) (bars w) (includeChords w)
    (isGenerating w) (isPlaying w) x (midiUrl w) (songTitle w)
    (synths_current w) (context_running w) (Transport_state w)
    (Transport_bpm w) (Transport_loop w) (Transport_loopStart w)
    (Transport_loopEnd w) (Transport_timeline w) (Transport_eventId w)
    (sessions w) (disposed w) (objectURLs w) (console w) (alerts w)
    (downloads w).

Definition set_midiUrl (x : option string) (w : World) : World :=
  mkWorld (selectedStyle w) (bpm w) (bars w) (includeChords w)
    (isGenerating w) (isPlaying w) (isBeatReady w) x (songTitle w)
    (synths_current w) (context_running w) (Transport_state w)
    (Transport_bpm w) (Transport_loop w) (Transport_loopStart w)
    (Transport_loopEnd w) (Transport_timeline w) (Transport_eventId w)
    (sessions w) (disposed w) (objectURLs w) (console w) (alerts w)
    (downloads w).

Definition set_songTitle (x : option string) (w : World) : World :=
  mkWorld (selectedStyle w) (bpm w) (bars w) (includeChords w)
    (isGenerating w) (isPlaying w) (isBeatReady w) (midiUrl w) x
    (synths_current w) (context_running w) (Transport_state w)
    (Transport_bpm w) (Transport_loop w) (Transport_loopStart w)
    (Transport_loopEnd w) (Transport_timeline w) (Transport_eventId w)
    (sessions w) (disposed w) (objectURLs w) (console w) (alerts w)
    (downloads w).

Definition set_synths_current (x : list Synth) (w : World) : World :=
  mkWorld (selectedStyle w) (bpm w) (bars w) (includeChords w)
    (isGenerating w) (isPlaying w) (isBeatReady w) (midiUrl w) (songTitle w)
    x (context_running w) (Transport_state w) (Transport_bpm w)
    (Transport_loop w) (Transport_loopStart w) (Transport_loopEnd w)
    (Transport_timeline w) (Transport_eventId w) (sessions w) (disposed w)
    (objectURLs w) (console w) (alerts w) (downloads w).

Definition set_context_running (x : bool) (w : World) : World :=
  mkWorld (selectedStyle w) (bpm w) (bars w) (includeChords w)
    (isGenerating w) (isPlaying w) (isBeatReady w) (midiUrl w) (songTitle w)
    (synths_current w) x (Transport_state w) (Transport_bpm w)
    (Transport_loop w) (Transport_loopStart w) (Transport_loopEnd w)
    (Transport_timeline w) (Transport_eventId w) (sessions w) (disposed w)
    (objectURLs w) (console w) (alerts w) (downloads w).

Definition set_Transport_state (x : PlaybackState) (w : World) : World :=
  mkWorld (selectedStyle w) (bpm w) (bars w) (includeChords w)
    (isGenerating w) (isPlaying w) (isBeatReady w) (midiUrl w) (songTitle w)
    (synths_current w) (context_running w) x (Transport_bpm w)
    (Transport_loop w) (Transport_loopStart w) (Transport_loopEnd w)
    (Transport_timeline w) (Transport_eventId w) (sessions w) (disposed w)
    (objectURLs w) (console w) (alerts w) (downloads w).

Definition set_Transport_bpm (x : Z) (w : World) : World :=
  mkWorld (selectedStyle w) (bpm w) (bars w) (includeChords w)
    (isGenerating w) (isPlaying w) (isBeatReady w) (midiUrl w) (songTitle w)
    (synths_current w) (context_running w) (Transport_state w) x
    (Transport_loop w) (Transport_loopStart w) (Transport_loopEnd w)
    (Transport_timeline w) (Transport_eventId w) (sessions w) (disposed w)
    (objectURLs w) (console w) (alerts w) (downloads w).

Definition set_Transport_loop (x : bool) (w : World) : World :=
  mkWorld (selectedStyle w) (bpm w) (bars w) (includeChords w)
    (isGenerating w) (isPlaying w) (isBeatReady w) (midiUrl w) (songTitle w)
    (synths_current w) (context_running w) (Transport_state w)
    (Transport_bpm w) x (Transport_loopStart w) (Transport_loopEnd w)
    (Transport_timeline w) (Transport_eventId w) (sessions w) (disposed w)
    (objectURLs w) (console w) (alerts w) (downloads w).

Definition set_Transport_loopStart (x : Q) (w : World) : World :=
  mkWorld (selectedStyle w) (bpm w) (bars w) (includeChords w)
    (isGenerating w) (isPlaying w) (isBeatReady w) (midiUrl w) (songTitle w)
    (synths_current w) (context_running w) (Transport_state w)
    (Transport_bpm w) (Transport_loop w) x (Transport_loopEnd w)
    (Transport_timeline w) (Transport_eventId w) (sessions w) (disposed w)
    (objectURLs w) (console w) (alerts w) (downloads w).

Definition set_Transport_loopEnd (x : Q) (w : World) : World :=
  mkWorld (selectedStyle w) (bpm w) (bars w) (includeChords w)
    (isGenerating w) (isPlaying w) (isBeatReady w) (midiUrl w) (songTitle w)
    (synths_current w) (context_running w) (Transport_state w)
    (Transport_bpm w) (Transport_loop w) (Transport_loopStart w) x
    (Transport_timeline w) (Transport_eventId w) (sessions w) (disposed w)
    (objectURLs w) (console w) (alerts w) (downloads w).

Definition set_Transport_timeline (x : list ScheduledEvent) (w : World) : World :=
  mkWorld (selectedStyle w) (bpm w) (bars w) (includeChords w)
    (isGenerating w) (isPlaying w) (isBeatReady w) (midiUrl w) (songTitle w)
    (synths_current w) (context_running w) (Transport_state w)
    (Transport_bpm w) (Transport_loop w) (Transport_loopStart w)
    (Transport_loopEnd w) x (Transport_eventId w) (sessions w) (disposed w)
    (objectURLs w) (console w) (alerts w) (downloads w).

Definition set_Transport_eventId (x : nat) (w : World) : World :=
  mkWorld (selectedStyle w) (bpm w) (bars w) (includeChords w)
    (isGenerating w) (isPlaying w) (isBeatReady w) (midiUrl w) (songTitle w)
    (synths_current w) (context_running w) (Transport_state w)
    (Transport_bpm w) (Transport_loop w) (Transport_loopStart w)
    (Transport_loopEnd w) (Transport_timeline w) x (sessions w) (disposed w)
    (objectURLs w) (console w) (alerts w) (downloads w).

Definition set_sessions (x : nat) (w : World) : World :=
  mkWorld (selectedStyle w) (bpm w) (bars w) (includeChords w)
    (isGenerating w) (isPlaying w) (isBeatReady w) (midiUrl w) (songTitle w)
    (synths_current w) (context_running w) (Transport_state w)
    (Transport_bpm w) (Transport_loop w) (Transport_loopStart w)
    (Transport_loopEnd w) (Transport_timeline w) (Transport_eventId w) x
    (disposed w) (objectURLs w) (console w) (alerts w) (downloads w).

Definition set_disposed (x : list Synth) (w : World) : World :=
  mkWorld (selectedStyle w) (bpm w) (bars w) (includeChords w)
    (isGenerating w) (isPlaying w) (isBeatReady w) (midiUrl w) (songTitle w)
    (synths_current w) (context_running w) (Transport_state w)
    (Transport_bpm w) (Transport_loop w) (Transport_loopStart w)
    (Transport_loopEnd w) (Transport_timeline w) (Transport_eventId w)
    (sessions w) x (objectURLs w) (console w) (alerts w) (downloads w).

Definition set_objectURLs (x : list (string * Blob)) (w : World) : World :=
  mkWorld (selectedStyle w) (bpm w) (bars w) (includeChords w)
    (isGenerating w) (isPlaying w) (isBeatReady w) (midiUrl w) (songTitle w)
    (synths_current w) (context_running w) (Transport_state w)
    (Transport_bpm w) (Transport_loop w) (Transport_loopStart w)
    (Transport_loopEnd w) (Transport_timeline w) (Transport_eventId w)
    (sessions w) (disposed w) x (console w) (alerts w) (downloads w).

Definition set_console (x : list string) (w : World) : World :=
  mkWorld (selectedStyle w) (bpm w) (bars w) (includeChords w)
    (isGenerating w) (isPlaying w) (isBeatReady w) (midiUrl w) (songTitle w)
    (synths_current w) (context_running w) (Transport_state w)
    (Transport_bpm w) (Transport_loop w) (Transport_loopStart w)
    (Transport_loopEnd w) (Transport_timeline w) (Transport_eventId w)
    (sessions w) (disposed w) (objectURLs w) x (alerts w) (downloads w).

Definition set_alerts (x : list string) (w : World) : World :=
  mkWorld (selectedStyle w) (bpm w) (bars w) (includeChords w)
    (isGenerating w) (isPlaying w) (isBeatReady w) (midiUrl w) (songTitle w)
    (synths_current w) (context_running w) (Transport_state w)
    (Transport_bpm w) (Transport_loop w) (Transport_loopStart w)
    (Transport_loopEnd w) (Transport_timeline w) (Transport_eventId w)
    (sessions w) (disposed w) (objectURLs w) (console w) x (downloads w).

Definition set_downloads (x : list Anchor) (w : World) : World :=
  mkWorld (selectedStyle w) (bpm w) (bars w) (includeChords w)
    (isGenerating w) (isPlaying w) (isBeatReady w) (midiUrl w) (songTitle w)
    (synths_current w) (context_running w) (Transport_state w)
    (Transport_bpm w) (Transport_loop w) (Transport_loopStart w)
    (Transport_loopEnd w) (Transport_timeline w) (Transport_eventId w)
    (sessions w) (disposed w) (objectURLs w) (console w) (alerts w) x.

(** ** Handlers as computations *)

Inductive Outcome (A : Type) :=
| Returned (a : A)
| Thrown (error : string).
Arguments Returned {A} a.
Arguments Thrown {A} error.

Definition M (A : Type) : Type := World -> Outcome A * World.

Definition ret {A} (a : A) : M A := fun w => (Returned a, w).

Definition bind {A B} (m : M A) (k : A -> M B) : M B :=
  fun w =>
    match m w with
    | (Returned a, w') => k a w'
    | (Thrown e, w') => (Thrown e, w')
    end.

Definition throw {A} (error : string) : M A := fun w => (Thrown error, w).

Definition gets {A} (f : World -> A) : M A := fun w => (Returned (f w), w).

Definition modify (f : World -> World) : M unit := fun w => (Returned tt, f w).

Declare Scope js_scope.
Delimit Scope js_scope with js.
Notation "x <- m ;; k" := (bind m (fun x => k))
  (at level 100, m at next level, right associativity) : js_scope.
Notation "m ;; k" := (bind m (fun _ => k))
  (at level 100, right associativity) : js_scope.
Local Open Scope js_scope.

(** [try { body } catch (error) { handler } finally { final }]. *)
Definition try_catch_finally {A} (body : M A) (handler : string -> M A)
    (final : M unit) : M A :=
  fun w =>
    let (r, w1) :=
      match body w with
      | (Returned a, w') => (Returned a, w')
      | (Thrown e, w') => handler e w'
      end in
    match final w1 with
    | (Returned _, w2) => (r, w2)
    | (Thrown e, w2) => (Thrown e, w2)
    end.

(** [l.forEach(f)]. *)
Fixpoint forEach {A} (l : list A) (f : A -> M unit) : M unit :=
  match l with
  | [] => ret tt
  | x :: l' => f x ;; forEach l' f
  end.

(** The world a handler leaves behind. *)
Definition exec {A} (m : M A) (w : World) : World := snd (m w).

(** What a promise settles to. *)
Inductive Settled (A : Type) :=
| Fulfilled (a : A)
| Rejected (reason : string).
Arguments Fulfilled {A} a.
Arguments Rejected {A} reason.

Definition await {A} (p : Settled A) : M A :=
  match p with
  | Fulfilled a => ret a
  | Rejected reason => throw reason
  end.

(** *** React setters *)

Definition setSelectedStyle (x : string) : M unit := modify (set_selectedStyle x).
Definition setBpm (x : Z) : M unit := modify (set_bpm x).
Definition setBars (x : Z) : M unit := modify (set_bars x).
Definition setIncludeChords (x : bool) : M unit := modify (set_includeChords x).
Definition setIsGenerating (x : bool) : M unit := modify (set_isGenerating x).
Definition setIsPlaying (x : bool) : M unit := modify (set_isPlaying x).
Definition setIsBeatReady (x : bool) : M unit := modify (set_isBeatReady x).
Definition setMidiUrl (x : option string) : M unit := modify (set_midiUrl x).
Definition setSongTitle (x : option string) : M unit := modify (set_songTitle x).

(** *** Tone.js *)

(** [Tone.start()]: resumes the audio context. *)
Definition Tone_start : M unit := modify (set_context_running true).

Definition Transport_start : M unit := modify (set_Transport_state started).

Definition Transport_stop : M unit := modify (set_Transport_state stopped).

(** [Tone.Transport.cancel()]: "Clear scheduled events". *)
Definition Transport_cancel : M unit := modify (set_Transport_timeline []).

(** [Tone.Transport.schedule(callback, time)]: a new timeline entry with
    a fresh id, which is returned. *)
Definition Transport_schedule (cb : Callback) (t : Q) : M nat :=
  fun w =>
    let id := Transport_eventId w in
    (Returned id,
     set_Transport_eventId (S id)
       (set_Transport_timeline (Transport_timeline w ++ [mkEvent id t cb]) w)).

(** [synth.dispose()]. *)
Definition dispose (synth : Synth) : M unit :=
  modify (fun w => set_disposed (disposed w ++ [synth]) w).

(** The run number that identifies the objects the [new] expressions of
    one run of [setupSynthsAndSchedule] construct. *)
Definition new_session : M nat :=
  fun w => (Returned (sessions w), set_sessions (S (sessions w)) w).

(** *** Browser *)

Definition console_log (msg : string) : M unit :=
  modify (fun w => set_console (console w ++ [msg]) w).

Definition console_error (msg : string) : M unit :=
  modify (fun w => set_console (console w ++ [msg]) w).

Definition alert (msg : string) : M unit :=
  modify (fun w => set_alerts (alerts w ++ [msg]) w).

(** Decimal spelling of a counter. *)
Definition decimal (n : nat) : string :=
  DecimalString.NilEmpty.string_of_uint (Nat.to_uint n).

(** [window.URL.createObjectURL(blob)]: a new URL bound to the blob. *)
Definition createObjectURL (blob : Blob) : M string :=
  fun w =>
    let url := "blob:" ++ decimal (List.length (objectURLs w)) in
    (Returned url, set_objectURLs ((url, blob) :: objectURLs w) w).


(** [a.click()] on an anchor carrying [href] and [download]. *)
Definition click_anchor (a : Anchor) : M unit :=
  modify (fun w => set_downloads (downloads w ++ [a]) w).

(** ** Strings *)

Definition dquote : ascii := ascii_of_nat 34.

Fixpoint skip (n : nat) (s : string) : string :=
  match n, s with
  | S n', String _ s' => skip n' s'
  | _, _ => s
  end.

(** The longest run of characters other than the double quote at the
    head of [s]: what a greedy negated character class consumes. *)
Fixpoint not_quotes (s : string) : string :=
  match s with
  | String c s' => if Ascii.eqb c dquote then "" else String c (not_quotes s')
  | EmptyString => ""
  end.

(** The regular expression of line 69 tried at the head of [s]: the
    letters [filename=], an optional double quote, capture group 1 made of
    one or more characters other than the double quote, and an optional
    double quote.  The result is group 1.  When the first optional quote
    is present and no other character follows it, backtracking over the
    quote does not help: the group would have to start with the quote. *)
Definition filename_here (s : string) : option string :=
  if prefix "filename=" s then
    match skip 9 s with
    | String c rest =>
        if Ascii.eqb c dquote then
          match not_quotes rest with
          | EmptyString => None
          | g => Some g
          end
        else Some (String c (not_quotes rest))
    | EmptyString => None
    end
  else None.

(** [s.match(...)] with that expression: the leftmost match, group 1. *)
Fixpoint match_filename (s : string) : option string :=
  match filename_here s with
  | Some g => Some g
  | None =>
      match s with
      | String _ s' => match_filename s'
      | EmptyString => None
      end
  end.

(** [s.replace(pat, rep)] with a string pattern: the first occurrence. *)
Fixpoint replace (pat rep s : string) : string :=
  if prefix pat s then rep ++ skip (String.length pat) s
  else
    match s with
    | String c s' => String c (replace pat rep s')
    | EmptyString => ""
    end.

(** Whether the character [c] occurs in [s]. *)
Fixpoint has_char (c : ascii) (s : string) : bool :=
  match s with
  | String d s' => Ascii.eqb d c || has_char c s'
  | EmptyString => false
  end.

(** ** The component *)

Record Style := mkStyle {
  id : string;
  style_name : string;
  description : string
}.

Definition STYLES : list Style :=
  [ mkStyle "boombap" "Boom Bap" "Classic 90s hip hop rhythms";
    mkStyle "trap" "Trap" "Heavy 808s and fast hi-hats";
    mkStyle "drill" "Drill" "Dark, sliding bass and syncopation";
    mkStyle "storch" "Storch" "Melodic piano driven bounce";
    mkStyle "edm" "EDM" "Four-on-the-floor dance energy";
    mkStyle "flume" "Flume" "Experimental heavy swing future bass";
    mkStyle "dilla" "Dilla" "Drunk swing and micro-timing (58%)" ].

(** The world at mount: the [useState] initial values, an empty
    [synths] ref and Tone's transport as it is created (stopped, 120 bpm,
    no loop, [loopEnd] of four measures). *)
Definition initial : World :=
  {| selectedStyle := "boombap"; bpm := 90; bars := 4;
     includeChords := false; isGenerating := false; isPlaying := false;
     isBeatReady := false; midiUrl := None; songTitle := None;
     synths_current := [];
     context_running := false;
     Transport_state := stopped; Transport_bpm := 120;
     Transport_loop := false; Transport_loopStart := 0;
     Transport_loopEnd := 8; Transport_timeline := [];
     Transport_eventId := 0; sessions := 0; disposed := [];
     objectURLs := []; console := []; alerts := []; downloads := [] |}.

(** Lines 38-44. *)
Definition cleanupAudio : M unit :=
  Transport_stop ;;
  Transport_cancel ;;
  (current <- gets synths_current ;; forEach current dispose) ;;
  modify (set_synths_current []) ;;
  setIsPlaying false.

(** Lines 46-49. *)
Definition initializeAudio : M unit :=
  Tone_start ;;
  console_log "Audio context started".

Definition synth_constants : list Voice :=
  [drumSynth; hatSynth; bassSynth; melodySynth; snareSynth; chordSynth].

(** Lines 94-167.  The static synthesis parameters of the six
    constructors play no part in scheduling and are left out. *)
Definition setupSynthsAndSchedule (midi : Midi) : M unit :=
  session <- new_session ;;
  modify (set_synths_current (map (fun v => mkSynth v session) synth_constants)) ;;
  (* Schedule *)
  (tempo <- gets bpm ;; modify (set_Transport_bpm tempo)) ;;
  modify (set_Transport_loop true) ;;
  modify (set_Transport_loopStart 0) ;;
  modify (set_Transport_loopEnd (Midi_duration midi)) ;;
  forEach (tracks midi) (fun track =>
    forEach (notes track) (fun note =>
      _ <- Transport_schedule (mkCallback session track note) (time note) ;;
      ret tt)).

(** The response of the generation endpoint as the handler reads it. *)
Record Response := mkResponse {
  ok : bool;
  Content_Disposition : option string;   (* [headers.get(...)], null when absent *)
  blob : Settled Blob                    (* [response.blob()] *)
}.

Definition default_filename (style : string) : string :=
  "beatstorm_" ++ style ++ ".mid".

(** Lines 66-71. *)
Definition suggested_filename (style : string) (contentDisposition : option string)
    : string :=
  match contentDisposition with
  | Some (String c h) =>
      match match_filename (String c h) with
      | Some g => g
      | None => default_filename style
      end
  | _ => default_filename style
  end.

(** Lines 51-92.  [fetched] is what the [fetch] promise settles to and
    [Midi_new] the constructor [new Midi(arrayBuffer)] applied to the
    bytes of the blob; both are in the hands of the environment. *)
Definition generateBeat (fetched : Settled Response)
    (Midi_new : Blob -> Settled Midi) : M unit :=
  (* 1. Cleanup previous *)
  cleanupAudio ;;
  initializeAudio ;;
  setIsGenerating true ;;
  setIsBeatReady false ;;
  setMidiUrl None ;;
  setSongTitle None ;;
  try_catch_finally
    ((* 2. Fetch *)
     response <- await fetched ;;
     (if negb (ok response) then throw "Error: Generation failed" else ret tt) ;;
     (* Filename *)
     style <- gets selectedStyle ;;
     let filename := suggested_filename style (Content_Disposition response) in
     setSongTitle (Some (replace ".mid" "" filename)) ;;
     (* Blob *)
     blob <- await (blob response) ;;
     url <- createObjectURL blob ;;
     setMidiUrl (Some url) ;;
     (* 3. Parse and Schedule *)
     midi <- await (Midi_new blob) ;;
     setupSynthsAndSchedule midi ;;
     setIsBeatReady true)
    (fun error =>
       console_error ("Error: " ++ error) ;;
       alert ("Error: " ++ error))
    (setIsGenerating false).

(** The two branches of [togglePlayback], lines 172-173 and 175-176. *)
Definition stop : M unit :=
  Transport_stop ;;
  setIsPlaying false.

Definition start : M unit :=
  Transport_start ;;
  setIsPlaying true.

(** Lines 169-178. *)
Definition togglePlayback : M unit :=
  Tone_start ;;
  playing <- gets isPlaying ;;
  if playing : bool then stop else start.

(** Line 184: the title when it is a non-empty string, the default name
    otherwise. *)
Definition download_name (title : option string) (style : string) : string :=
  match title with
  | Some (String d t) => String d t ++ ".mid"
  | _ => default_filename style
  end.

(** Lines 180-188.  A [midiUrl] that is [null] or empty is falsy. *)
Definition downloadBeat : M unit :=
  url <- gets midiUrl ;;
  match url with
  | Some (String c u) =>
      title <- gets songTitle ;;
      style <- gets selectedStyle ;;
      click_anchor (mkAnchor (String c u) (download_name title style))
  | _ => ret tt
  end.

(** *** The three buttons

    A button that is [disabled] does not run its [onClick]. *)

Definition click_generate (fetched : Settled Response)
    (Midi_new : Blob -> Settled Midi) : M unit :=
  disabled <- gets isGenerating ;;
  if disabled : bool then ret tt else generateBeat fetched Midi_new.

Definition click_play : M unit :=
  ready <- gets isBeatReady ;;
  if negb ready then ret tt else togglePlayback.

Definition click_download : M unit :=
  ready <- gets isBeatReady ;;
  if negb ready then ret tt else downloadBeat.

(** ** Dispatch *)

(** The position of a looping transport runs from [loopStart] up to,
    but not including, [loopEnd]: only the events in between are met. *)
Definition in_loop (w : World) (e : ScheduledEvent) : bool :=
  Qle_bool (Transport_loopStart w) (ev_time e)
  && negb (Qle_bool (Transport_loopEnd w) (ev_time e)).

(** The calls one pass over the loop issues, in the order the events
    were registered; [t0] is the audio time at which the pass is at
    position 0.  Nothing is dispatched unless the transport is started. *)
Definition loop_pass (w : World) (t0 : Q) : list Call :=
  match Transport_state w with
  | started =>
      map (fun e => callback (ev_callback e) (t0 + ev_time e)%Q)
        (filter (in_loop w) (Transport_timeline w))
  | _ => []
  end.

(** The callbacks a score gives rise to, with their times, for the
    synths of run [session]; [registrations] numbers them from [first]
    on. *)
Definition score_callbacks (session : nat) (midi : Midi) : list (Callback * Q) :=
  flat_map
    (fun track => map (fun note => (mkCallback session track note, time note))
                      (notes track))
    (tracks midi).

Fixpoint number_events (first : nat) (l : list (Callback * Q)) : list ScheduledEvent :=
  match l with
  | [] => []
  | (cb, t) :: l' => mkEvent first t cb :: number_events (S first) l'
  end.

Definition registrations (session first : nat) (midi : Midi) : list ScheduledEvent :=
  number_events first (score_callbacks session midi).


(** ** Closed forms of the worlds the handlers produce

    Each is proved below to be what the handler computes. *)

(** The transport after scheduling [evs] one after the other. *)
Definition add_events (evs : list (Callback * Q)) (w : World) : World :=
  set_Transport_eventId (Transport_eventId w + List.length evs)
    (set_Transport_timeline
       (Transport_timeline w ++ number_events (Transport_eventId w) evs) w).

(** After [cleanupAudio]. *)
Definition cleaned (w : World) : World :=
  set_isPlaying false
    (set_synths_current []
       (set_disposed (disposed w ++ synths_current w)
          (set_Transport_timeline [] (set_Transport_state stopped w)))).

(** After [setupSynthsAndSchedule midi]. *)
Definition configured (midi : Midi) (w : World) : World :=
  add_events (score_callbacks (sessions w) midi)
    (set_Transport_loopEnd (Midi_duration midi)
       (set_Transport_loopStart 0
          (set_Transport_loop true
             (set_Transport_bpm (bpm w)
                (set_synths_current
                   (map (fun v => mkSynth v (sessions w)) synth_constants)
                   (set_sessions (S (sessions w)) w)))))).

(** [generateBeat] at the point where it enters its [try] block. *)
Definition prepared (w : World) : World :=
  set_songTitle None
    (set_midiUrl None
       (set_isBeatReady false
          (set_isGenerating true
             (set_console (console w ++ ["Audio context started"])
                (set_context_running true (cleaned w)))))).

(** The [catch] and [finally] blocks of [generateBeat] run on [w]. *)
Definition reported (error : string) (w : World) : World :=
  set_isGenerating false
    (set_alerts (alerts w ++ ["Error: " ++ error])
       (set_console (console w ++ ["Error: " ++ error]) w)).

(** After a [generateBeat] in which every step succeeded. *)
Definition generated (r : Response) (b : Blob) (midi : Midi) (w : World) : World :=
  let filename := suggested_filename (selectedStyle w) (Content_Disposition r) in
  let url := "blob:" ++ decimal (List.length (objectURLs w)) in
  set_isGenerating false
    (set_isBeatReady true
       (configured midi
          (set_midiUrl (Some url)
             (set_objectURLs ((url, b) :: objectURLs w)
                (set_songTitle (Some (replace ".mid" "" filename))
                   (prepared w)))))).

(** ** Conditions on the environment and on the world *)

(** The endpoint answered with success, the body could be read and the
    bytes decode to [midi]. *)
Definition generation_succeeds (fetched : Settled Response)
    (Midi_new : Blob -> Settled Midi) (r : Response) (b : Blob) (midi : Midi)
    : Prop :=
  fetched = Fulfilled r /\ ok r = true /\ blob r = Fulfilled b
  /\ Midi_new b = Fulfilled midi.

(** The fetch was rejected with [error], or answered with a status
    outside 200-299, for which the handler throws its own error. *)
Definition fetch_fails (fetched : Settled Response) (error : string) : Prop :=
  match fetched with
  | Rejected reason => error = reason
  | Fulfilled r => ok r = false /\ error = "Error: Generation failed"
  end.

(** A synth object exists once its run has happened, and is live until
    it is disposed. *)
Definition constructed (w : World) (s : Synth) : Prop :=
  (synth_session s < sessions w)%nat.

Definition live (w : World) (s : Synth) : Prop :=
  constructed w s /\ ~ In s (disposed w).

(** No scheduler is configured: no voice is held, nothing is registered,
    the transport is stopped and playback is not offered. *)
Definition unconfigured (w : World) : Prop :=
  synths_current w = [] /\ Transport_timeline w = []
  /\ Transport_state w = stopped /\ isPlaying w = false
  /\ isBeatReady w = false.

(** The bookkeeping that every world reached through the handlers obeys:
    the synths held and disposed were constructed, callbacks refer to
    constructed synths, a live synth is held in [synths.current], a held
    synth is not disposed, and no synth is disposed or held twice. *)
Record well_formed (w : World) : Prop := mkWellFormed {
  wf_held : forall s, In s (synths_current w) -> constructed w s;
  wf_disposed : forall s, In s (disposed w) -> constructed w s;
  wf_timeline : forall e, In e (Transport_timeline w) ->
      (cb_session (ev_callback e) < sessions w)%nat;
  wf_no_orphan : forall s, live w s -> In s (synths_current w);
  wf_held_live : forall s, In s (synths_current w) -> ~ In s (disposed w);
  wf_once : NoDup (disposed w ++ synths_current w)
}.

(** The part of the world [well_formed] speaks about. *)
Definition audio (w : World)
    : list Synth * list Synth * list ScheduledEvent * nat :=
  (synths_current w, disposed w, Transport_timeline w, sessions w).

(** What the user can do to the mounted page. *)
Inductive action :=
| Generate (fetched : Settled Response) (Midi_new : Blob -> Settled Midi)
| Play
| Download
| SelectStyle (style : Style)
| SetBpm (b : Z)
| SetBars (b : Z)
| SetIncludeChords (b : bool).

Definition perform (a : action) : M unit :=
  match a with
  | Generate fetched Midi_new => click_generate fetched Midi_new
  | Play => click_play
  | Download => click_download
  | SelectStyle style => setSelectedStyle (id style)
  | SetBpm b => setBpm b
  | SetBars b => setBars b
  | SetIncludeChords b => setIncludeChords b
  end.

Inductive reachable : World -> Prop :=
| reach_initial : reachable initial
| reach_step a w : reachable w -> reachable (exec (perform a) w).


(** ** A small score, used to exercise the statements *)

Definition kick_note : Note := mkNote 36 "C2" (4 # 5) 0 (1 # 10).
Definition hat_note : Note := mkNote 42 "F#2" (3 # 5) (1 # 2) (1 # 100).
Definition clap_note : Note := mkNote 39 "D#2" (3 # 5) 1 (1 # 4).
Definition bass_note : Note := mkNote 40 "E2" (4 # 5) 1 (1 # 2).

Definition drum_track : Track := mkTrack 9 [kick_note; hat_note; clap_note].
Definition bass_track : Track := mkTrack 0 [bass_note].

Definition demo_score : Midi := mkMidi [drum_track; bass_track].

Definition demo_bytes : Blob := [Byte.x4d; Byte.x54; Byte.x68; Byte.x64].

Definition demo_response : Response :=
  mkResponse true
    (Some ("attachment; filename=" ++ String dquote "Dark_Storm.mid"
             ++ String dquote ""))
    (Fulfilled demo_bytes).

Definition plain_response : Response :=
  mkResponse true None (Fulfilled demo_bytes).

Definition demo_parser (b : Blob) : Settled Midi := Fulfilled demo_score.

(** The page after one successful generation, with playback running. *)
Definition demo_playing : World :=
  exec (perform Play)
    (exec (perform (Generate (Fulfilled demo_response) demo_parser))
       initial).

(** ** The rest of the page *)

(** Lines 32-36: the effect registered at mount returns the teardown
    that React runs when the component unmounts. *)
Definition unmount : M unit := cleanupAudio.

(** [generateBeat] inside its [try] block, after [setSongTitle]. *)
Definition titled (r : Response) (w : World) : World :=
  set_songTitle
    (Some (replace ".mid" ""
             (suggested_filename (selectedStyle w) (Content_Disposition r))))
    (prepared w).

(** ... and after [setMidiUrl]. *)
Definition stored (r : Response) (b : Blob) (w : World) : World :=
  let url := "blob:" ++ decimal (List.length (objectURLs w)) in
  set_midiUrl (Some url) (set_objectURLs ((url, b) :: objectURLs w) (titled r w)).

(** The world [generateBeat] leaves, whatever the environment does. *)
Definition after_generateBeat (fetched : Settled Response)
    (Midi_new : Blob -> Settled Midi) (w : World) : World :=
  match fetched with
  | Rejected reason => reported reason (prepared w)
  | Fulfilled r =>
      if ok r then
        match blob r with
        | Rejected reason => reported reason (titled r w)
        | Fulfilled b =>
            match Midi_new b with
            | Rejected reason => reported reason (stored r b w)
            | Fulfilled midi => generated r b midi w
            end
        end
      else reported "Error: Generation failed" (prepared w)
  end.



(** How the flags of the page and the audio side hang together between
    two handlers. *)
Record consistent (w : World) : Prop := mkConsistent {
  cs_idle : isGenerating w = false;
  cs_transport :
    Transport_state w = if isPlaying w then started else stopped;
  cs_playing_ready : isPlaying w = true -> isBeatReady w = true;
  cs_ready :
    isBeatReady w = true ->
    synths_current w
    = map (fun v => mkSynth v (Nat.pred (sessions w))) synth_constants
    /\ (0 < sessions w)%nat
    /\ midiUrl w <> None /\ songTitle w <> None
    /\ Transport_loop w = true /\ Transport_loopStart w = 0%Q;
  cs_not_ready :
    isBeatReady w = false ->
    synths_current w = [] /\ Transport_timeline w = []
}.

(** A sequence of user actions, first to last. *)
Fixpoint run (l : list action) (w : World) : World :=
  match l with
  | [] => w
  | a :: l' => run l' (exec (perform a) w)
  end.

Definition is_generate (a : action) : bool :=
  match a with
  | Generate _ _ => true
  | _ => false
  end.

(** The values the controls of the page can produce: a style card of
    [STYLES] (lines 214-217), the range input between its [min] and [max]
    (lines 242-247), one of the three length buttons (lines 255-258). *)
Definition from_controls (a : action) : Prop :=
  match a with
  | SelectStyle style => In style STYLES
  | SetBpm b => 60 <= b <= 180
  | SetBars b => In b [4; 8; 16]
  | _ => True
  end.

Inductive ui_reachable : World -> Prop :=
| ui_initial : ui_reachable initial
| ui_step a w :
    from_controls a -> ui_reachable w -> ui_reachable (exec (perform a) w).

(** What an event carries besides its id and the run of its synths. *)
Definition payload (e : ScheduledEvent) : Track * Note * Q :=
  (cb_track (ev_callback e), cb_note (ev_callback e), ev_time e).

(** A header of the usual shape, with the file name between quotes. *)
Definition quoted_header (fname : string) : string :=
  "attachment; filename=" ++ String dquote (fname ++ String dquote "").


(** Every event on the timeline was registered by the run that built
    the synths now held. *)
Definition timeline_held (w : World) : Prop :=
  forall e, In e (Transport_timeline w) ->
            synths_current w
            = map (fun v => mkSynth v (cb_session (ev_callback e)))
                synth_constants.

(** What a configured beat consists of: the settings of the transport,
    its timeline, the synths, and the stored artifact. *)
Definition beat (w : World) :=
  (Transport_bpm w, Transport_loop w, Transport_loopStart w,
   Transport_loopEnd w, Transport_timeline w,
   (synths_current w, disposed w, sessions w),
   (midiUrl w, songTitle w, objectURLs w)).

(** The parameters of the page lie within what its controls offer. *)
Definition within_controls (w : World) : Prop :=
  In (selectedStyle w) (map id STYLES)
  /\ 60 <= bpm w <= 180
  /\ In (bars w) [4; 8; 16]
  /\ 60 <= Transport_bpm w <= 180.


(** ** A run of [generateBeat], await by await

    [generateBeat] is an [async] function: it runs up to an [await],
    returns to the event loop, and resumes when the awaited promise has
    settled.  In between other handlers may run, a second [generateBeat]
    among them.  What follows cuts the handler at its four awaits. *)

(** What the environment will answer to one run. *)
Record Environment := mkEnvironment {
  env_audio : Settled unit;                (* [Tone.start()], line 47 *)
  env_fetched : Settled Response;          (* [fetch(...)], line 62 *)
  env_Midi_new : Blob -> Settled Midi      (* [new Midi(...)], line 81 *)
}.

(** The await at which a run is suspended, with the locals it holds. *)
Inductive Suspended :=
| AwaitAudio                          (* line 54 *)
| AwaitFetch                          (* line 62 *)
| AwaitBlob (response : Response)     (* line 75 *)
| AwaitArrayBuffer (blob : Blob).     (* line 80 *)

(** A run in flight.  The handler is a closure of the render in which
    the button was clicked: [selectedStyle] and [bpm] are the values of
    that render, whatever the state holds when the run resumes. *)
Record Run := mkRun {
  run_style : string;
  run_bpm : Z;
  run_env : Environment;
  run_at : Suspended
}.

Definition suspend (r : Run) (at_ : Suspended) : Run :=
  mkRun (run_style r) (run_bpm r) (run_env r) at_.

(** [setupSynthsAndSchedule] as the closure of a render whose [bpm] is
    [tempo] runs it (lines 94-167). *)
Definition setupSynthsAndSchedule_closed (tempo : Z) (midi : Midi) : M unit :=
  session <- new_session ;;
  modify (set_synths_current (map (fun v => mkSynth v session) synth_constants)) ;;
  modify (set_Transport_bpm tempo) ;;
  modify (set_Transport_loop true) ;;
  modify (set_Transport_loopStart 0) ;;
  modify (set_Transport_loopEnd (Midi_duration midi)) ;;
  forEach (tracks midi) (fun track =>
    forEach (notes track) (fun note =>
      _ <- Transport_schedule (mkCallback session track note) (time note) ;;
      ret tt)).

(** Lines 53-54: what a click runs before the handler first suspends,
    in [initializeAudio], on the promise of [Tone.start()]. *)
Definition generateBeat_begin (env : Environment) : M Run :=
  style <- gets selectedStyle ;;
  tempo <- gets bpm ;;
  cleanupAudio ;;
  ret (mkRun style tempo env AwaitAudio).

(** The [catch] block followed by the [finally] block, lines 86-91. *)
Definition caught (error : string) : M unit :=
  console_error ("Error: " ++ error) ;;
  alert ("Error: " ++ error) ;;
  setIsGenerating false.

(** A stretch of the [try] block: what it throws ends the run in
    [caught]. *)
Definition in_try (body : M (option Run)) : M (option Run) :=
  fun w =>
    match body w with
    | (Thrown error, w') => (caught error ;; ret None) w'
    | returned => returned
    end.

(** The run resumes where it was suspended and goes on to its next
    await, or to its end ([None]).  The await of line 54 is outside the
    [try]: if [Tone.start()] rejects, the handler throws. *)
Definition generateBeat_resume (r : Run) : M (option Run) :=
  let env := run_env r in
  match run_at r with
  | AwaitAudio =>
      await (env_audio env) ;;
      Tone_start ;;
      console_log "Audio context started" ;;
      setIsGenerating true ;;
      setIsBeatReady false ;;
      setMidiUrl None ;;
      setSongTitle None ;;
      ret (Some (suspend r AwaitFetch))
  | AwaitFetch =>
      in_try
        (response <- await (env_fetched env) ;;
         (if negb (ok response) then throw "Error: Generation failed"
          else ret tt) ;;
         let filename :=
           suggested_filename (run_style r) (Content_Disposition response) in
         setSongTitle (Some (replace ".mid" "" filename)) ;;
         ret (Some (suspend r (AwaitBlob response))))
  | AwaitBlob response =>
      in_try
        (blob <- await (blob response) ;;
         url <- createObjectURL blob ;;
         setMidiUrl (Some url) ;;
         ret (Some (suspend r (AwaitArrayBuffer blob))))
  | AwaitArrayBuffer blob =>
      in_try
        (midi <- await (env_Midi_new env blob) ;;
         setupSynthsAndSchedule_closed (run_bpm r) midi ;;
         setIsBeatReady true ;;
         setIsGenerating false ;;
         ret None)
  end.

(** A run that nothing interleaves with: each await is resumed as soon
    as the run has suspended on it. *)
Fixpoint generateBeat_finish (awaits : nat) (r : Run) : M unit :=
  match awaits with
  | O => ret tt
  | S n =>
      next <- generateBeat_resume r ;;
      match next with
      | Some r' => generateBeat_finish n r'
      | None => ret tt
      end
  end.

Definition generateBeat_run (env : Environment) : M unit :=
  r <- generateBeat_begin env ;;
  generateBeat_finish 4 r.

(** *** The page with runs in flight *)

Record Page := mkPage {
  world : World;
  in_flight : list Run
}.

Inductive Event :=
| ClickGenerate (env : Environment)   (* a click on the Generate button *)
| Settle (i : nat).                   (* the promise run [i] awaits settles *)

(** The runs in flight once run [i] has become [next], or has ended. *)
Fixpoint update_run (i : nat) (next : option Run) (l : list Run) : list Run :=
  match l, i with
  | [], _ => []
  | r :: l', O =>
      match next with
      | Some r' => r' :: l'
      | None => l'
      end
  | r :: l', S j => r :: update_run j next l'
  end.

(** One turn of the event loop.  The Generate button is disabled while
    [isGenerating] is true (line 298). *)
Definition page_step (e : Event) (p : Page) : Page :=
  match e with
  | ClickGenerate env =>
      if isGenerating (world p) then p
      else
        match generateBeat_begin env (world p) with
        | (Returned r, w') => mkPage w' (in_flight p ++ [r])
        | (Thrown _, w') => mkPage w' (in_flight p)
        end
  | Settle i =>
      match nth_error (in_flight p) i with
      | Some r =>
          match generateBeat_resume r (world p) with
          | (Returned next, w') => mkPage w' (update_run i next (in_flight p))
          | (Thrown _, w') => mkPage w' (update_run i None (in_flight p))
          end
      | None => p
      end
  end.

Fixpoint page_run (events : list Event) (p : Page) : Page :=
  match events with
  | [] => p
  | e :: rest => page_run rest (page_step e p)
  end.

(** The awaits a run still has before it. *)
Definition awaits_left (s : Suspended) : nat :=
  match s with
  | AwaitAudio => 4
  | AwaitFetch => 3
  | AwaitBlob _ => 2
  | AwaitArrayBuffer _ => 1
  end.

(** A second score, and two clicks on Generate of which the second comes
    while the first run still awaits [Tone.start()]. *)
Definition lead_note : Note := mkNote 64 "E4" (1 # 2) 0 (3 # 2).
Definition lead_track : Track := mkTrack 1 [lead_note].
Definition second_score : Midi := mkMidi [lead_track].
Definition second_parser (b : Blob) : Settled Midi := Fulfilled second_score.

Definition first_env : Environment :=
  mkEnvironment (Fulfilled tt) (Fulfilled demo_response) demo_parser.
Definition second_env : Environment :=
  mkEnvironment (Fulfilled tt) (Fulfilled plain_response) second_parser.

Definition overlapping_clicks : list Event :=
  [ ClickGenerate first_env;    (* first run: lines 53-54, suspends *)
    ClickGenerate second_env;   (* second run: lines 53-54, suspends *)
    Settle 0; Settle 1;         (* both: lines 55-62 *)
    Settle 0; Settle 1;         (* both: lines 63-75 *)
    Settle 0; Settle 1;         (* both: lines 76-80 *)
    Settle 0;                   (* first run: lines 81-84 and 90, ends *)
    Settle 0 ].                 (* second run: lines 81-84 and 90, ends *)

(** * Properties *)

(** ** Running the handlers *)

(** Normalises projections of updated worlds; on a world that has been
    destructed this leaves a record of the field values. *)
Ltac world_norm :=
  cbv beta iota delta
    [add_events cleaned configured prepared reported generated
     selectedStyle bpm bars includeChords isGenerating isPlaying isBeatReady
     midiUrl songTitle synths_current context_running Transport_state
     Transport_bpm Transport_loop Transport_loopStart Transport_loopEnd
     Transport_timeline Transport_eventId sessions disposed objectURLs
     console alerts downloads
     set_selectedStyle set_bpm set_bars set_includeChords set_isGenerating
     set_isPlaying set_isBeatReady set_midiUrl set_songTitle set_synths_current
     set_context_running set_Transport_state set_Transport_bpm
     set_Transport_loop set_Transport_loopStart set_Transport_loopEnd
     set_Transport_timeline set_Transport_eventId set_sessions set_disposed
     set_objectURLs set_console set_alerts set_downloads].

Lemma bind_returned {A B} (m : M A) (k : A -> M B) w a w' :
  m w = (Returned a, w') -> bind m k w = k a w'.
Proof. intros H. unfold bind. rewrite H. reflexivity. Qed.

Lemma bind_modify {B} (f : World -> World) (k : unit -> M B) w :
  bind (modify f) k w = k tt (f w).
Proof. reflexivity. Qed.

Lemma bind_gets {A B} (f : World -> A) (k : A -> M B) w :
  bind (gets f) k w = k (f w) w.
Proof. reflexivity. Qed.

Lemma bind_ret {A B} (a : A) (k : A -> M B) w : bind (ret a) k w = k a w.
Proof. reflexivity. Qed.

Lemma bind_assoc {A B C} (m : M A) (k : A -> M B) (h : B -> M C) w :
  bind (bind m k) h w = bind m (fun a => bind (k a) h) w.
Proof. unfold bind. destruct (m w) as [[a|e] w']; reflexivity. Qed.

Lemma forEach_dispose (l : list Synth) (w : World) :
  forEach l dispose w = (Returned tt, set_disposed (disposed w ++ l) w).
Proof.
  revert w. induction l as [|s l IH]; intros w.
  - destruct w. world_norm. rewrite app_nil_r. reflexivity.
  - cbn [forEach]. unfold dispose at 1. rewrite bind_modify, IH.
    destruct w. world_norm. rewrite <- app_assoc. reflexivity.
Qed.

Lemma add_events_nil w : add_events [] w = w.
Proof.
  destruct w. world_norm. cbn [number_events List.length].
  rewrite app_nil_r, Nat.add_0_r. reflexivity.
Qed.

Lemma number_events_app n l1 l2 :
  number_events n (l1 ++ l2)%list
  = (number_events n l1 ++ number_events (n + List.length l1) l2)%list.
Proof.
  revert n. induction l1 as [|[cb t] l1 IH]; intros n; cbn.
  - rewrite Nat.add_0_r. reflexivity.
  - rewrite IH, <- Nat.add_succ_comm. reflexivity.
Qed.

Lemma add_events_app l1 l2 w :
  add_events l2 (add_events l1 w) = add_events (l1 ++ l2)%list w.
Proof.
  unfold add_events at 3. rewrite number_events_app, length_app.
  destruct w. world_norm.
  rewrite Nat.add_assoc, <- app_assoc. reflexivity.
Qed.

Lemma Transport_schedule_exec cb t w :
  Transport_schedule cb t w
  = (Returned (Transport_eventId w), add_events [(cb, t)] w).
Proof.
  unfold Transport_schedule. destruct w. world_norm.
  cbn [number_events List.length]. rewrite Nat.add_1_r. reflexivity.
Qed.

Lemma forEach_notes session track ns w :
  forEach ns (fun note =>
      _ <- Transport_schedule (mkCallback session track note) (time note) ;;
      ret tt) w
  = (Returned tt,
     add_events
       (map (fun note => (mkCallback session track note, time note)) ns) w).
Proof.
  revert w. induction ns as [|n ns IH]; intros w.
  - cbn [forEach map]. rewrite add_events_nil. reflexivity.
  - cbn [forEach map]. rewrite bind_assoc.
    rewrite (bind_returned _ _ _ _ _ (Transport_schedule_exec _ _ w)).
    rewrite bind_ret, IH, add_events_app. reflexivity.
Qed.

Lemma forEach_tracks session ts w :
  forEach ts (fun track =>
    forEach (notes track) (fun note =>
      _ <- Transport_schedule (mkCallback session track note) (time note) ;;
      ret tt)) w
  = (Returned tt, add_events (score_callbacks session (mkMidi ts)) w).
Proof.
  revert w. induction ts as [|tr ts IH]; intros w.
  - cbn [forEach]. unfold score_callbacks. cbn [tracks flat_map].
    rewrite add_events_nil. reflexivity.
  - cbn [forEach].
    rewrite (bind_returned _ _ _ _ _ (forEach_notes session tr (notes tr) w)).
    rewrite IH, add_events_app. reflexivity.
Qed.

Lemma cleanupAudio_exec w : cleanupAudio w = (Returned tt, cleaned w).
Proof.
  unfold cleanupAudio, cleaned, Transport_stop, Transport_cancel, setIsPlaying.
  rewrite bind_modify, bind_modify, bind_assoc, bind_gets.
  rewrite (bind_returned _ _ _ _ _ (forEach_dispose _ _)).
  rewrite bind_modify.
  reflexivity.
Qed.

Lemma setupSynthsAndSchedule_exec midi w :
  setupSynthsAndSchedule midi w = (Returned tt, configured midi w).
Proof.
  unfold setupSynthsAndSchedule, configured.
  unfold new_session at 1. unfold bind at 1.
  rewrite bind_modify, bind_assoc, bind_gets, !bind_modify.
  destruct midi as [ts]. cbn [tracks].
  rewrite forEach_tracks. reflexivity.
Qed.

Lemma initializeAudio_exec w :
  initializeAudio w
  = (Returned tt, set_console (console w ++ ["Audio context started"])
                    (set_context_running true w)).
Proof. reflexivity. Qed.

Lemma prologue_exec {A} (k : M A) w :
  (cleanupAudio ;; initializeAudio ;; setIsGenerating true ;;
   setIsBeatReady false ;; setMidiUrl None ;; setSongTitle None ;; k) w
  = k (prepared w).
Proof.
  rewrite (bind_returned _ _ _ _ _ (cleanupAudio_exec w)).
  rewrite (bind_returned _ _ _ _ _ (initializeAudio_exec _)).
  unfold setIsGenerating, setIsBeatReady, setMidiUrl, setSongTitle.
  rewrite !bind_modify.
  reflexivity.
Qed.

Lemma generateBeat_fetch_failure fetched Midi_new error w :
  fetch_fails fetched error ->
  generateBeat fetched Midi_new w = (Returned tt, reported error (prepared w)).
Proof.
  intros H. unfold generateBeat. rewrite prologue_exec.
  generalize (prepared w) as w0. intros w0.
  destruct fetched as [r|reason]; cbn in H.
  - destruct H as [Hok ->]. unfold try_catch_finally.
    cbn [await]. rewrite bind_ret, Hok. cbn [negb].
    reflexivity.
  - subst error. reflexivity.
Qed.

Lemma generateBeat_success fetched Midi_new r b midi w :
  generation_succeeds fetched Midi_new r b midi ->
  generateBeat fetched Midi_new w = (Returned tt, generated r b midi w).
Proof.
  intros (-> & Hok & Hb & Hm). unfold generateBeat. rewrite prologue_exec.
  unfold generated.
  replace (selectedStyle w) with (selectedStyle (prepared w))
    by (destruct w; reflexivity).
  replace (objectURLs w) with (objectURLs (prepared w))
    by (destruct w; reflexivity).
  generalize (prepared w) as w0. intros w0.
  unfold try_catch_finally.
  cbn [await]. rewrite bind_ret, Hok. cbn [negb]. rewrite bind_ret, bind_gets.
  unfold setSongTitle at 1. rewrite bind_modify, Hb. cbn [await].
  rewrite bind_ret.
  unfold createObjectURL at 1. unfold bind at 1.
  unfold setMidiUrl at 1. rewrite bind_modify, Hm. cbn [await].
  rewrite bind_ret.
  rewrite (bind_returned _ _ _ _ _ (setupSynthsAndSchedule_exec _ _)).
  reflexivity.
Qed.

Lemma togglePlayback_exec w :
  togglePlayback w
  = (Returned tt,
     set_isPlaying (negb (isPlaying w))
       (set_Transport_state (if isPlaying w then stopped else started)
          (set_context_running true w))).
Proof.
  unfold togglePlayback, Tone_start. rewrite bind_modify, bind_gets.
  replace (isPlaying (set_context_running true w)) with (isPlaying w)
    by (destruct w; reflexivity).
  destruct (isPlaying w); reflexivity.
Qed.

(** ** Routing *)

Lemma routing_table_9 (p : Z) :
  routing_table 9 p
  = if p =? 36 then Kick
    else if (p =? 42) || (p =? 46) then HiHat else Snare.
Proof.
  destruct (Z.eqb_spec p 36) as [->|H1]; [reflexivity|].
  destruct (Z.eqb_spec p 42) as [->|H2]; [reflexivity|].
  destruct (Z.eqb_spec p 46) as [->|H3]; [reflexivity|].
  cbn [orb]. unfold routing_table.
  destruct p as [|p|p]; try reflexivity.
  do 6 (try destruct p as [p|p|]); try reflexivity; congruence.
Qed.

Lemma routing_table_other (c p : Z) :
  c <> 9 ->
  routing_table c p
  = if c =? 0 then Bass else if c =? 2 then Chord else Melody.
Proof.
  intros H. unfold routing_table.
  destruct c as [|c|c]; try reflexivity.
  do 4 (try destruct c as [c|c|]); try reflexivity. congruence.
Qed.

Lemma callback_synth session track note t :
  call_synth (callback (mkCallback session track note) t)
  = mkSynth (route track note) session.
Proof.
  unfold route, callback; cbn [cb_track cb_note cb_session].
  destruct (channel track =? 9).
  - destruct (midi note =? 36); [reflexivity|].
    destruct ((midi note =? 42) || (midi note =? 46)); reflexivity.
  - destruct (channel track =? 0); [reflexivity|].
    destruct (channel track =? 2); reflexivity.
Qed.

Lemma route_cases track note :
  route track note
  = if channel track =? 9 then
      if midi note =? 36 then drumSynth
      else if (midi note =? 42) || (midi note =? 46) then hatSynth
      else snareSynth
    else if channel track =? 0 then bassSynth
    else if channel track =? 2 then chordSynth
    else melodySynth.
Proof.
  unfold route, callback; cbn [cb_track cb_note cb_session].
  destruct (channel track =? 9).
  - destruct (midi note =? 36); [reflexivity|].
    destruct ((midi note =? 42) || (midi note =? 46)); reflexivity.
  - destruct (channel track =? 0); [reflexivity|].
    destruct (channel track =? 2); reflexivity.
Qed.

Lemma route_hatSynth track note :
  route track note = hatSynth
  <-> channel track = 9 /\ (midi note = 42 \/ midi note = 46).
Proof.
  rewrite route_cases.
  destruct (Z.eqb_spec (channel track) 9) as [E9|N9].
  - destruct (Z.eqb_spec (midi note) 36) as [E|N].
    + split; [discriminate|]. intros [_ [H|H]]; rewrite E in H; discriminate.
    + destruct (Z.eqb_spec (midi note) 42) as [E42|N42]; cbn [orb].
      * split; auto.
      * destruct (Z.eqb_spec (midi note) 46) as [E46|N46].
        -- split; auto.
        -- split; [discriminate|]. intros [_ [H|H]]; contradiction.
  - destruct (channel track =? 0); [|destruct (channel track =? 2)];
      (split; [discriminate | intros [H _]; contradiction]).
Qed.

Lemma route_snareSynth track note :
  route track note = snareSynth
  <-> channel track = 9 /\ midi note <> 36 /\ midi note <> 42
      /\ midi note <> 46.
Proof.
  rewrite route_cases.
  destruct (Z.eqb_spec (channel track) 9) as [E9|N9].
  - destruct (Z.eqb_spec (midi note) 36) as [E|N].
    + split; [discriminate|]. intros (_ & H & _). contradiction.
    + destruct (Z.eqb_spec (midi note) 42) as [E42|N42]; cbn [orb].
      * split; [discriminate|]. intros (_ & _ & H & _). contradiction.
      * destruct (Z.eqb_spec (midi note) 46) as [E46|N46].
        -- split; [discriminate|]. intros (_ & _ & _ & H). contradiction.
        -- split; auto.
  - destruct (channel track =? 0); [|destruct (channel track =? 2)];
      (split; [discriminate | intros [H _]; contradiction]).
Qed.

(** C1.  Routing is total and is the table of section 4.1: whatever the
    channel of the track and the pitch of the note, the scheduled
    callback calls exactly one voice, the one the table gives for
    (channel, pitch): Kick for (9, 36), HiHat for (9, 42) and (9, 46),
    Snare for any other pitch on channel 9, Bass on channel 0, Chord on
    channel 2 and Melody on every other channel; the synth called is the
    one its own run of [setupSynthsAndSchedule] bound to that voice. *)
Theorem routing_total_and_exact (track : Track) (note : Note) :
  kind (route track note) = routing_table (channel track) (midi note)
  /\ forall session t,
       call_synth (callback (mkCallback session track note) t)
       = mkSynth (route track note) session.
Proof.
  split; [|intros; apply callback_synth].
  rewrite route_cases.
  destruct (Z.eqb_spec (channel track) 9) as [E9|N9].
  - rewrite E9, routing_table_9.
    destruct (midi note =? 36); [reflexivity|].
    destruct ((midi note =? 42) || (midi note =? 46)); reflexivity.
  - rewrite routing_table_other by assumption.
    destruct (channel track =? 0); [reflexivity|].
    destruct (channel track =? 2); reflexivity.
Qed.

(** ** The hi-hat floor *)

Lemma Math_max_ge_r (x y : Q) : (y <= Math_max x y)%Q.
Proof.
  unfold Math_max. destruct (x ?= y)%Q eqn:E.
  - apply Qeq_alt in E. rewrite E. apply Qle_refl.
  - apply Qle_refl.
  - apply Qgt_alt in E. apply Qlt_le_weak, E.
Qed.

Lemma Math_max_ge_l (x y : Q) : (x <= Math_max x y)%Q.
Proof.
  unfold Math_max. destruct (x ?= y)%Q eqn:E.
  - apply Qle_refl.
  - apply Qlt_alt in E. apply Qlt_le_weak, E.
  - apply Qle_refl.
Qed.

Lemma Math_max_keeps (x y : Q) : (y <= x)%Q -> Math_max x y = x.
Proof.
  intros H. unfold Math_max. destruct (x ?= y)%Q eqn:E; try reflexivity.
  apply Qlt_alt in E. exfalso. apply (Qlt_not_le _ _ E H).
Qed.

Lemma Math_max_cases (x y : Q) : Math_max x y = x \/ Math_max x y = y.
Proof. unfold Math_max. destruct (x ?= y)%Q; auto. Qed.

Lemma callback_hat session track note t :
  route track note = hatSynth ->
  callback (mkCallback session track note) t
  = mkCall (mkSynth hatSynth session) (Some (name note))
      (Math_max (duration note) min_hat_duration) t (velocity note).
Proof.
  rewrite route_cases. unfold callback; cbn [cb_track cb_note cb_session].
  destruct (channel track =? 9).
  - destruct (midi note =? 36); [discriminate|].
    destruct ((midi note =? 42) || (midi note =? 46));
      [reflexivity | discriminate].
  - destruct (channel track =? 0); [discriminate|].
    destruct (channel track =? 2); discriminate.
Qed.

(** C2.  For a note sent to the hi-hat (channel 9, pitch 42 or 46) the
    duration handed to [triggerAttackRelease] is
    [Math.max(note.duration, 0.03)]: never below 0.03 s, and the note's
    own duration whenever that is 0.03 s or more. *)
Theorem hihat_duration_floor (session : nat) (track : Track) (note : Note)
    (t : Q) :
  route track note = hatSynth ->
  let c := callback (mkCallback session track note) t in
  call_duration c = Math_max (duration note) (3 # 100)
  /\ (3 # 100 <= call_duration c)%Q
  /\ ((3 # 100 <= duration note)%Q -> call_duration c = duration note).
Proof.
  intros H c. subst c. rewrite (callback_hat _ _ _ _ H).
  cbn [call_duration]. unfold min_hat_duration.
  split; [reflexivity|]. split.
  - apply Math_max_ge_r.
  - apply Math_max_keeps.
Qed.

Lemma hihat_duration_floor_witness :
  route drum_track hat_note = hatSynth
  /\ call_duration (callback (mkCallback 0 drum_track hat_note) (1 # 2))
     = 3 # 100.
Proof.
  split; [reflexivity|].
  exact (proj1 (hihat_duration_floor 0 drum_track hat_note (1 # 2) eq_refl)).
Defined.

(** ** Triggers without a note name *)

Lemma callback_snare session track note t :
  route track note = snareSynth ->
  callback (mkCallback session track note) t
  = mkCall (mkSynth snareSynth session) None (duration note) t
      (velocity note).
Proof.
  rewrite route_cases. unfold callback; cbn [cb_track cb_note cb_session].
  destruct (channel track =? 9).
  - destruct (midi note =? 36); [discriminate|].
    destruct ((midi note =? 42) || (midi note =? 46));
      [discriminate | reflexivity].
  - destruct (channel track =? 0); [discriminate|].
    destruct (channel track =? 2); discriminate.
Qed.

Lemma call_note_None session track note t :
  call_note (callback (mkCallback session track note) t) = None
  <-> route track note = snareSynth.
Proof.
  rewrite route_cases. unfold callback; cbn [cb_track cb_note cb_session].
  destruct (channel track =? 9).
  - destruct (midi note =? 36); [split; discriminate|].
    destruct ((midi note =? 42) || (midi note =? 46));
      [split; discriminate | split; reflexivity].
  - destruct (channel track =? 0); [split; discriminate|].
    destruct (channel track =? 2); split; discriminate.
Qed.

(** C3, as the specification states it, fails on the hi-hat: the note
    [hat_note] of channel 9 with pitch 42 is routed to the hi-hat, and the
    call that fires it carries the note name. *)
Lemma hihat_call_carries_name :
  ~ ((route drum_track hat_note = hatSynth
      \/ route drum_track hat_note = snareSynth) ->
     call_note (callback (mkCallback 0 drum_track hat_note) 0%Q) = None).
Proof.
  intros H. specialize (H (or_introl eq_refl)). discriminate H.
Qed.

(** C3, amended.  Only the noise voice is triggered by duration alone: a
    call carries no note name exactly when the note is routed to Snare,
    which is the case exactly for the notes of channel 9 with a pitch
    other than 36, 42 and 46; such a note fires the Snare synth with
    (duration, time, velocity) and nothing else.  A hi-hat trigger passes
    [note.name] along with its duration. *)
Theorem snare_triggered_by_duration_only (session : nat) (track : Track)
    (note : Note) (t : Q) :
  let c := callback (mkCallback session track note) t in
  (call_note c = None <-> route track note = snareSynth)
  /\ (route track note = snareSynth
      <-> channel track = 9 /\ midi note <> 36 /\ midi note <> 42
          /\ midi note <> 46)
  /\ (route track note = snareSynth ->
      c = mkCall (mkSynth snareSynth session) None (duration note) t
            (velocity note))
  /\ (route track note = hatSynth -> call_note c = Some (name note)).
Proof.
  intros c. subst c. split; [apply call_note_None|].
  split; [apply route_snareSynth|]. split.
  - apply callback_snare.
  - intros H. rewrite (callback_hat _ _ _ _ H). reflexivity.
Qed.

Lemma snare_triggered_by_duration_only_witness :
  route drum_track clap_note = snareSynth
  /\ callback (mkCallback 0 drum_track clap_note) 1
     = mkCall (mkSynth snareSynth 0) None (1 # 4) 1 (3 # 5).
Proof.
  split; [reflexivity|].
  exact (proj1 (proj2 (proj2
           (snare_triggered_by_duration_only 0 drum_track clap_note 1)))
           eq_refl).
Defined.

(** ** Configuring the transport *)

Lemma maximum_In (x : Q) (l : list Q) : In (maximum x l) (x :: l).
Proof.
  revert x. induction l as [|y l IH]; intros x; cbn [maximum].
  - left. reflexivity.
  - destruct (IH (Math_max x y)) as [H|H].
    + rewrite <- H.
      destruct (Math_max_cases x y) as [E|E]; rewrite E;
        [left | right; left]; reflexivity.
    + right. right. exact H.
Qed.

Lemma maximum_upper_bound (x : Q) (l : list Q) :
  Forall (fun y => (y <= maximum x l)%Q) (x :: l).
Proof.
  revert x. induction l as [|y l IH]; intros x; cbn [maximum].
  - constructor; [apply Qle_refl | constructor].
  - specialize (IH (Math_max x y)). inversion IH as [|? ? Hm Hl]; subst.
    constructor; [|constructor; [|exact Hl]].
    + apply Qle_trans with (Math_max x y); [apply Math_max_ge_l | exact Hm].
    + apply Qle_trans with (Math_max x y); [apply Math_max_ge_r | exact Hm].
Qed.

Lemma Midi_duration_upper_bound (m : Midi) :
  Forall (fun n => (note_end n <= Midi_duration m)%Q) (all_notes m).
Proof.
  unfold Midi_duration.
  apply Forall_forall. intros n Hn.
  apply (in_map note_end) in Hn.
  destruct (map note_end (all_notes m)) as [|e es]; [contradiction|].
  pose proof (maximum_upper_bound e es) as H.
  rewrite Forall_forall in H. apply H, Hn.
Qed.

Lemma Midi_duration_attained (m : Midi) :
  all_notes m = []
  \/ exists n, In n (all_notes m) /\ Midi_duration m = note_end n.
Proof.
  unfold Midi_duration.
  destruct (all_notes m) as [|n ns] eqn:E; [left; reflexivity|right].
  cbn [map].
  pose proof (maximum_In (note_end n) (map note_end ns)) as H.
  change (note_end n :: map note_end ns) with (map note_end (n :: ns)) in H.
  apply in_map_iff in H. destruct H as (n' & Hn' & Hin).
  exists n'. split; [exact Hin | symmetry; exact Hn'].
Qed.

(** C4.  [setupSynthsAndSchedule] leaves the transport looping from 0,
    at the tempo the page holds in [bpm], with [loopEnd] set to the
    duration of the score; that duration is the greatest
    [time + duration] of its notes: no note ends later, and some note,
    if there is one, ends exactly there. *)
Theorem configure_sets_transport (midi : Midi) (w : World) :
  let w' := exec (setupSynthsAndSchedule midi) w in
  Transport_loopStart w' = 0%Q
  /\ Transport_loop w' = true
  /\ Transport_bpm w' = bpm w
  /\ Transport_loopEnd w' = Midi_duration midi
  /\ Forall (fun n => (note_end n <= Transport_loopEnd w')%Q) (all_notes midi)
  /\ (all_notes midi = []
      \/ exists n, In n (all_notes midi)
                   /\ Transport_loopEnd w' = note_end n).
Proof.
  intros w'. subst w'. unfold exec. rewrite setupSynthsAndSchedule_exec.
  cbn [snd].
  assert (E : Transport_loopEnd (configured midi w) = Midi_duration midi)
    by (destruct w; reflexivity).
  rewrite E.
  split; [destruct w; reflexivity|].
  split; [destruct w; reflexivity|].
  split; [destruct w; reflexivity|].
  split; [reflexivity|].
  split; [apply Midi_duration_upper_bound | apply Midi_duration_attained].
Qed.

(** ** One registration per note *)

Lemma number_events_length n l :
  List.length (number_events n l) = List.length l.
Proof.
  revert n. induction l as [|[cb t] l IH]; intros n; cbn;
    [reflexivity | rewrite IH; reflexivity].
Qed.

Lemma number_events_ids n l :
  map ev_id (number_events n l) = seq n (List.length l).
Proof.
  revert n. induction l as [|[cb t] l IH]; intros n; cbn;
    [reflexivity | rewrite IH; reflexivity].
Qed.

Lemma number_events_payload n l :
  map (fun e => (ev_callback e, ev_time e)) (number_events n l) = l.
Proof.
  revert n. induction l as [|[cb t] l IH]; intros n; cbn;
    [reflexivity | rewrite IH; reflexivity].
Qed.

Lemma score_callbacks_notes session midi :
  map (fun p => (cb_note (fst p), snd p)) (score_callbacks session midi)
  = map (fun n => (n, time n)) (all_notes midi).
Proof.
  unfold score_callbacks, all_notes.
  induction (tracks midi) as [|tr ts IH]; cbn [flat_map]; [reflexivity|].
  rewrite !map_app, IH, map_map. reflexivity.
Qed.

Lemma score_callbacks_session session midi :
  Forall (fun p => cb_session (fst p) = session)
    (score_callbacks session midi).
Proof.
  unfold score_callbacks. apply Forall_forall. intros [cb t] H.
  apply in_flat_map in H. destruct H as (tr & _ & H).
  apply in_map_iff in H. destruct H as (n & E & _).
  inversion E; subst. reflexivity.
Qed.

Lemma configured_timeline midi w :
  Transport_timeline (configured midi w)
  = (Transport_timeline w
     ++ registrations (sessions w) (Transport_eventId w) midi)%list.
Proof. destruct w; reflexivity. Qed.

(** C5.  One run of [setupSynthsAndSchedule] appends to the timeline
    exactly one event per note of every track, in score order, each at the
    note's own [time], each under an event id of its own; the number of
    events installed is the number of notes. *)
Theorem configure_registers_each_note_once (midi : Midi) (w : World) :
  let w' := exec (setupSynthsAndSchedule midi) w in
  let installed := registrations (sessions w) (Transport_eventId w) midi in
  Transport_timeline w' = (Transport_timeline w ++ installed)%list
  /\ map (fun e => (cb_note (ev_callback e), ev_time e)) installed
     = map (fun n => (n, time n)) (all_notes midi)
  /\ map (fun e => (ev_callback e, ev_time e)) installed
     = score_callbacks (sessions w) midi
  /\ List.length installed = List.length (all_notes midi)
  /\ NoDup (map ev_id installed).
Proof.
  intros w' installed. subst w' installed.
  unfold exec. rewrite setupSynthsAndSchedule_exec. cbn [snd].
  split; [apply configured_timeline|].
  unfold registrations.
  assert (P : map (fun e => (ev_callback e, ev_time e))
                (number_events (Transport_eventId w)
                   (score_callbacks (sessions w) midi))
              = score_callbacks (sessions w) midi)
    by apply number_events_payload.
  split.
  - rewrite <- score_callbacks_notes with (session := sessions w).
    rewrite <- P at 2. rewrite map_map. reflexivity.
  - split; [exact P|]. split.
    + rewrite number_events_length.
      rewrite <- (length_map (fun p => (cb_note (fst p), snd p))).
      rewrite score_callbacks_notes, length_map. reflexivity.
    + rewrite number_events_ids. apply seq_NoDup.
Qed.

(** The first end-to-end example of section 8: a kick at 0 s lasting
    0.1 s and a hi-hat at 0.5 s lasting 0.01 s on channel 9 fire the kick
    synth with 0.1 s and the hi-hat synth with 0.03 s. *)
Example kick_and_short_hat :
  let score := mkMidi [mkTrack 9 [kick_note; hat_note]] in
  let w := exec togglePlayback (exec (setupSynthsAndSchedule score) initial) in
  map (fun c => (synth_voice (call_synth c), call_time c, call_duration c))
    (loop_pass w 0)
  = [(drumSynth, 0 + 0, 1 # 10); (hatSynth, 0 + (1 # 2), 3 # 100)]%Q.
Proof. vm_compute. reflexivity. Qed.

(** ** Tearing down and stopping *)

Lemma cleaned_idempotent w : cleaned (cleaned w) = cleaned w.
Proof. destruct w. world_norm. rewrite app_nil_r. reflexivity. Qed.

Lemma stop_exec w :
  stop w = (Returned tt, set_isPlaying false (set_Transport_state stopped w)).
Proof. reflexivity. Qed.

(** C6.  [cleanupAudio] never throws, and leaves the transport stopped,
    the timeline empty, [synths.current] empty and [isPlaying] false.
    Run a second time it changes nothing at all: the world is the one the
    first run left, and in particular no [dispose()] is issued again, the
    synths held beforehand having been disposed once each.  The stop
    branch of [togglePlayback] run twice likewise leaves the world of one
    run. *)
Theorem cleanupAudio_idempotent (w : World) :
  let w1 := exec cleanupAudio w in
  cleanupAudio w = (Returned tt, w1)
  /\ cleanupAudio w1 = (Returned tt, w1)
  /\ Transport_state w1 = stopped
  /\ Transport_timeline w1 = []
  /\ synths_current w1 = []
  /\ isPlaying w1 = false
  /\ disposed w1 = (disposed w ++ synths_current w)%list
  /\ disposed (exec cleanupAudio w1) = disposed w1
  /\ stop (exec stop w) = (Returned tt, exec stop w).
Proof.
  intros w1. subst w1. unfold exec. rewrite !cleanupAudio_exec. cbn [snd].
  rewrite cleaned_idempotent.
  split; [reflexivity|]. split; [reflexivity|].
  split; [destruct w; reflexivity|].
  split; [destruct w; reflexivity|].
  split; [destruct w; reflexivity|].
  split; [destruct w; reflexivity|].
  split; [destruct w; reflexivity|].
  split; [reflexivity|].
  rewrite !stop_exec. cbn [snd]. destruct w; reflexivity.
Qed.

(** ** Playback before a beat is ready *)

(** C7, as the specification states it, fails: the page at mount is
    unconfigured, and so is any page just torn down by [cleanupAudio]
    that offers no beat, yet [togglePlayback] run there starts the
    transport and sets [isPlaying]. *)
Lemma togglePlayback_starts_unconfigured :
  unconfigured initial
  /\ unconfigured (exec cleanupAudio initial)
  /\ Transport_state (exec togglePlayback initial) = started
  /\ isPlaying (exec togglePlayback initial) = true
  /\ exec togglePlayback initial <> initial
  /\ exec togglePlayback (exec cleanupAudio initial)
     <> exec cleanupAudio initial.
Proof.
  split; [repeat split|]. split; [repeat split|].
  split; [reflexivity|]. split; [reflexivity|].
  split; intros H; apply (f_equal isPlaying) in H; discriminate H.
Qed.

(** C7, amended.  [togglePlayback] has no guard of its own; it never
    throws, and what makes playback inert before a beat is ready is the
    Play button, disabled while [isBeatReady] is false: a click on it
    then leaves the world exactly as it was.  [isBeatReady] is false at
    mount and in every unconfigured world. *)
Theorem play_button_inert_until_ready (w : World) :
  isBeatReady w = false ->
  click_play w = (Returned tt, w)
  /\ fst (togglePlayback w) = Returned tt.
Proof.
  intros H. split.
  - unfold click_play. rewrite bind_gets, H. reflexivity.
  - rewrite togglePlayback_exec. reflexivity.
Qed.

Lemma play_button_inert_until_ready_witness :
  isBeatReady initial = false
  /\ click_play initial = (Returned tt, initial).
Proof.
  split; [reflexivity|].
  exact (proj1 (play_button_inert_until_ready initial eq_refl)).
Defined.

(** ** The bookkeeping invariant *)

Lemma well_formed_audio w1 w2 :
  audio w1 = audio w2 -> well_formed w1 -> well_formed w2.
Proof.
  unfold audio. intros E [H1 H2 H3 H4 H5 H6].
  inversion E as [[Ec Ed Et Es]].
  constructor; unfold live, constructed in *;
    rewrite <- ?Ec, <- ?Ed, <- ?Et, <- ?Es; assumption.
Qed.

Lemma well_formed_initial : well_formed initial.
Proof.
  constructor; cbn; unfold live, constructed; cbn; try contradiction.
  - intros s [H _]. lia.
  - constructor.
Qed.

Lemma cleaned_audio w :
  synths_current (cleaned w) = []
  /\ disposed (cleaned w) = (disposed w ++ synths_current w)%list
  /\ Transport_timeline (cleaned w) = []
  /\ sessions (cleaned w) = sessions w.
Proof. destruct w; repeat split; reflexivity. Qed.

Lemma well_formed_cleaned w : well_formed w -> well_formed (cleaned w).
Proof.
  intros [H1 H2 H3 H4 H5 H6].
  destruct (cleaned_audio w) as (Ec & Ed & Et & Es).
  constructor; unfold live, constructed in *;
    rewrite ?Ec, ?Ed, ?Et, ?Es.
  - contradiction.
  - intros s Hs. apply in_app_or in Hs. destruct Hs; auto.
  - contradiction.
  - intros s [Hc Hd]. exfalso. apply Hd, in_or_app.
    right. apply H4. split; [exact Hc|].
    intros Hin. apply Hd, in_or_app. left. exact Hin.
  - contradiction.
  - rewrite app_nil_r. exact H6.
Qed.

Lemma In_new_pool (s : Synth) (n : nat) :
  In s (map (fun v => mkSynth v n) synth_constants) <-> synth_session s = n.
Proof.
  split.
  - intros H. apply in_map_iff in H. destruct H as (v & <- & _). reflexivity.
  - intros <-. destruct s as [v k]. cbn [synth_session].
    destruct v; cbn; auto 7.
Qed.

Lemma NoDup_new_pool (n : nat) :
  NoDup (map (fun v => mkSynth v n) synth_constants).
Proof.
  repeat constructor; cbn; intuition discriminate.
Qed.

Lemma configured_audio midi w :
  synths_current (configured midi w)
  = map (fun v => mkSynth v (sessions w)) synth_constants
  /\ disposed (configured midi w) = disposed w
  /\ Transport_timeline (configured midi w)
     = (Transport_timeline w
        ++ registrations (sessions w) (Transport_eventId w) midi)%list
  /\ sessions (configured midi w) = S (sessions w).
Proof. destruct w; repeat split; reflexivity. Qed.

Lemma registrations_session session first midi e :
  In e (registrations session first midi) ->
  cb_session (ev_callback e) = session.
Proof.
  unfold registrations. intros H.
  pose proof (score_callbacks_session session midi) as F.
  rewrite <- (number_events_payload first) in F.
  rewrite Forall_forall in F.
  apply (F (ev_callback e, ev_time e)).
  apply (in_map (fun e => (ev_callback e, ev_time e))), H.
Qed.

Lemma well_formed_configured midi w :
  well_formed w -> synths_current w = [] ->
  well_formed (configured midi w).
Proof.
  intros [H1 H2 H3 H4 H5 H6] Hempty.
  destruct (configured_audio midi w) as (Ec & Ed & Et & Es).
  constructor; unfold live, constructed in *;
    rewrite ?Ec, ?Ed, ?Et, ?Es.
  - intros s Hs. apply In_new_pool in Hs. lia.
  - intros s Hs. apply H2 in Hs. lia.
  - intros e He. apply in_app_or in He. destruct He as [He|He].
    + apply H3 in He. lia.
    + apply registrations_session in He. lia.
  - intros s [Hc Hd]. apply In_new_pool.
    destruct (Nat.eq_dec (synth_session s) (sessions w)) as [|Hne];
      [assumption|].
    exfalso. assert (Hl : In s (synths_current w)).
    { apply H4. split; [lia | exact Hd]. }
    rewrite Hempty in Hl. contradiction.
  - intros s Hs Hd. apply In_new_pool in Hs. apply H2 in Hd. lia.
  - apply NoDup_app.
    + rewrite Hempty, app_nil_r in H6. exact H6.
    + apply NoDup_new_pool.
    + intros s Hd Hs. apply In_new_pool in Hs. apply H2 in Hd. lia.
Qed.

Lemma audio_prepared w : audio (prepared w) = audio (cleaned w).
Proof. destruct w; reflexivity. Qed.

Lemma audio_reported error w : audio (reported error w) = audio w.
Proof. destruct w; reflexivity. Qed.

Lemma audio_generated r b midi w :
  audio (generated r b midi w) = audio (configured midi (cleaned w)).
Proof. destruct w; reflexivity. Qed.

Lemma well_formed_generated r b midi w :
  well_formed w -> well_formed (generated r b midi w).
Proof.
  intros H. apply (well_formed_audio (configured midi (cleaned w))).
  - symmetry. apply audio_generated.
  - apply well_formed_configured.
    + apply well_formed_cleaned, H.
    + destruct w; reflexivity.
Qed.

Lemma generateBeat_outcome fetched Midi_new w :
  (exists r b midi,
      generation_succeeds fetched Midi_new r b midi
      /\ exec (generateBeat fetched Midi_new) w = generated r b midi w)
  \/ audio (exec (generateBeat fetched Midi_new) w) = audio (cleaned w).
Proof.
  destruct fetched as [r|reason].
  2:{ right. unfold exec.
      rewrite (generateBeat_fetch_failure _ _ reason) by reflexivity.
      cbn [snd]. rewrite audio_reported. apply audio_prepared. }
  destruct (ok r) eqn:Hok.
  2:{ right. unfold exec.
      rewrite (generateBeat_fetch_failure _ _ "Error: Generation failed")
        by (split; [exact Hok | reflexivity]).
      cbn [snd]. rewrite audio_reported. apply audio_prepared. }
  destruct (blob r) as [b|reason] eqn:Hb.
  2:{ right. unfold exec, generateBeat. rewrite prologue_exec.
      rewrite <- audio_prepared. generalize (prepared w) as w0. intros w0.
      unfold try_catch_finally.
      cbn [await]. rewrite bind_ret, Hok. cbn [negb].
      rewrite bind_ret, bind_gets.
      unfold setSongTitle at 1. rewrite bind_modify, Hb. cbn [await].
      destruct w0; reflexivity. }
  destruct (Midi_new b) as [midi|reason] eqn:Hm.
  2:{ right. unfold exec, generateBeat. rewrite prologue_exec.
      rewrite <- audio_prepared. generalize (prepared w) as w0. intros w0.
      unfold try_catch_finally.
      cbn [await]. rewrite bind_ret, Hok. cbn [negb].
      rewrite bind_ret, bind_gets.
      unfold setSongTitle at 1. rewrite bind_modify, Hb. cbn [await].
      rewrite bind_ret.
      unfold createObjectURL at 1. unfold bind at 1.
      unfold setMidiUrl at 1. rewrite bind_modify, Hm. cbn [await].
      destruct w0; reflexivity. }
  left. exists r, b, midi.
  assert (S : generation_succeeds (Fulfilled r) Midi_new r b midi)
    by (repeat split; assumption).
  split; [exact S|]. unfold exec. rewrite (generateBeat_success _ _ _ _ _ _ S).
  reflexivity.
Qed.

Lemma well_formed_generateBeat fetched Midi_new w :
  well_formed w -> well_formed (exec (generateBeat fetched Midi_new) w).
Proof.
  intros H.
  destruct (generateBeat_outcome fetched Midi_new w)
    as [(r & b & midi & _ & ->)|E].
  - apply well_formed_generated, H.
  - apply (well_formed_audio (cleaned w));
      [symmetry; exact E | apply well_formed_cleaned, H].
Qed.

Lemma audio_togglePlayback w : audio (exec togglePlayback w) = audio w.
Proof.
  unfold exec. rewrite togglePlayback_exec. cbn [snd].
  destruct w; reflexivity.
Qed.

Lemma downloadBeat_exec w :
  downloadBeat w
  = (Returned tt,
     match midiUrl w with
     | Some (String c u) =>
         set_downloads
           (downloads w
            ++ [mkAnchor (String c u)
                  (download_name (songTitle w) (selectedStyle w))]) w
     | _ => w
     end).
Proof.
  unfold downloadBeat. rewrite bind_gets.
  destruct (midiUrl w) as [[|c u]|]; reflexivity.
Qed.

Lemma audio_downloadBeat w : audio (exec downloadBeat w) = audio w.
Proof.
  unfold exec. rewrite downloadBeat_exec. cbn [snd].
  destruct (midiUrl w) as [[|c u]|]; reflexivity.
Qed.

(** Every world the user can bring about is well formed. *)
Lemma reachable_well_formed w : reachable w -> well_formed w.
Proof.
  induction 1 as [|a w _ IH]; [apply well_formed_initial|].
  destruct a; cbn [perform].
  - unfold exec, click_generate. rewrite bind_gets.
    destruct (isGenerating w); [exact IH|].
    apply well_formed_generateBeat, IH.
  - unfold exec, click_play. rewrite bind_gets.
    destruct (negb (isBeatReady w)); [exact IH|].
    apply (well_formed_audio w); [symmetry; apply audio_togglePlayback | exact IH].
  - unfold exec, click_download. rewrite bind_gets.
    destruct (negb (isBeatReady w)); [exact IH|].
    apply (well_formed_audio w); [symmetry; apply audio_downloadBeat | exact IH].
  - apply (well_formed_audio w); [destruct w; reflexivity | exact IH].
  - apply (well_formed_audio w); [destruct w; reflexivity | exact IH].
  - apply (well_formed_audio w); [destruct w; reflexivity | exact IH].
  - apply (well_formed_audio w); [destruct w; reflexivity | exact IH].
Qed.

(** ** A failed fetch *)




(** ** Regenerating *)

Lemma generated_fields r b midi w :
  let w' := generated r b midi w in
  synths_current w' = map (fun v => mkSynth v (sessions w)) synth_constants
  /\ disposed w' = (disposed w ++ synths_current w)%list
  /\ Transport_timeline w'
     = registrations (sessions w) (Transport_eventId w) midi
  /\ sessions w' = S (sessions w)
  /\ isPlaying w' = false
  /\ isBeatReady w' = true
  /\ Transport_state w' = stopped.
Proof. destruct w. repeat split; reflexivity. Qed.

Lemma callback_session cb t :
  synth_session (call_synth (callback cb t)) = cb_session cb.
Proof. destruct cb as [k tr n]. rewrite callback_synth. reflexivity. Qed.

Lemma loop_pass_started w t0 :
  isPlaying w = false ->
  loop_pass (exec togglePlayback w) t0
  = map (fun e => callback (ev_callback e) (t0 + ev_time e)%Q)
      (filter (in_loop w) (Transport_timeline w)).
Proof.
  intros H. unfold exec. rewrite togglePlayback_exec, H. cbn [snd].
  destruct w; reflexivity.
Qed.

Lemma filter_all {A} (f : A -> bool) (l : list A) :
  Forall (fun x => f x = true) l -> filter f l = l.
Proof.
  induction 1 as [|x l Hx _ IH]; cbn [filter];
    [reflexivity | rewrite Hx, IH; reflexivity].
Qed.

Lemma registrations_note session first midi e :
  In e (registrations session first midi) ->
  exists n, In n (all_notes midi) /\ ev_time e = time n.
Proof.
  intros H.
  apply (in_map (fun e => (cb_note (ev_callback e), ev_time e))) in H.
  unfold registrations in H.
  rewrite <- (map_map (fun e => (ev_callback e, ev_time e))
                      (fun p => (cb_note (fst p), snd p))) in H.
  rewrite number_events_payload, score_callbacks_notes in H.
  apply in_map_iff in H. destruct H as (n & E & Hn).
  exists n. split; [exact Hn|]. inversion E. reflexivity.
Qed.

(** The loop is long enough: when the notes of the score start at or
    after 0 and last for a positive time, every one of them is met in each
    pass of the loop that [setupSynthsAndSchedule] configures on an empty
    timeline, and fires its call. *)
Lemma every_note_fires_each_pass midi w t0 :
  Forall (fun n => (0 <= time n)%Q /\ (0 < duration n)%Q) (all_notes midi) ->
  Transport_timeline w = [] -> isPlaying w = false ->
  loop_pass (exec togglePlayback (exec (setupSynthsAndSchedule midi) w)) t0
  = map (fun p => callback (fst p) (t0 + snd p)%Q)
      (score_callbacks (sessions w) midi).
Proof.
  intros Hnotes Hempty Hplay.
  assert (E : exec (setupSynthsAndSchedule midi) w = configured midi w)
    by (unfold exec; rewrite setupSynthsAndSchedule_exec; reflexivity).
  rewrite E. clear E.
  rewrite loop_pass_started by (destruct w; exact Hplay).
  rewrite configured_timeline, Hempty. cbn [app].
  rewrite filter_all.
  - unfold registrations.
    rewrite <- (number_events_payload (Transport_eventId w)
                  (score_callbacks (sessions w) midi)) at 2.
    rewrite map_map. reflexivity.
  - apply Forall_forall. intros e He.
    apply registrations_note in He. destruct He as (n & Hn & Et).
    rewrite Forall_forall in Hnotes. destruct (Hnotes n Hn) as [H0 Hd].
    pose proof (Midi_duration_upper_bound midi) as U.
    rewrite Forall_forall in U. specialize (U n Hn). unfold note_end in U.
    unfold in_loop.
    replace (Transport_loopStart (configured midi w)) with 0%Q
      by (destruct w; reflexivity).
    replace (Transport_loopEnd (configured midi w)) with (Midi_duration midi)
      by (destruct w; reflexivity).
    rewrite Et. apply andb_true_intro. split.
    + apply Qle_bool_iff, H0.
    + apply negb_true_iff. apply not_true_is_false. intros Hle.
      apply Qle_bool_iff in Hle.
      assert (Hlt : (time n < time n + duration n)%Q).
      { rewrite <- (Qplus_0_r (time n)) at 1.
        apply Qplus_lt_r, Hd. }
      apply (Qlt_not_le _ _ Hlt).
      apply Qle_trans with (Midi_duration midi); assumption.
Qed.

(** X16.  When no other run of [generateBeat] is in flight, in a well
    formed world, such as any the user can reach with the handlers run
    one after the other, and whatever was configured or playing there, a
    [generateBeat] that succeeds leaves on the timeline the registrations
    of the new score and no others: no event registered before the call is
    still on it.  Every synth held before the call has been disposed and
    is no longer held; the live synths are exactly the six of the new
    run; and a pass over the loop, once playback is started, issues calls
    to synths of the new run only.  No separate teardown is needed:
    [generateBeat] begins with [cleanupAudio]. *)
Theorem regenerate_retires_previous_session (fetched : Settled Response)
    (Midi_new : Blob -> Settled Midi) (r : Response) (b : Blob)
    (midi : Midi) (w : World) :
  well_formed w ->
  generation_succeeds fetched Midi_new r b midi ->
  let w' := exec (generateBeat fetched Midi_new) w in
  Transport_timeline w'
  = registrations (sessions w) (Transport_eventId w) midi
  /\ (forall e, In e (Transport_timeline w) ->
                ~ In e (Transport_timeline w'))
  /\ (forall s, In s (synths_current w) ->
                In s (disposed w') /\ ~ In s (synths_current w'))
  /\ (forall s, live w' s <-> In s (synths_current w'))
  /\ (forall t0,
        Forall (fun c => In (call_synth c) (synths_current w')
                         /\ synth_session (call_synth c) = sessions w)
          (loop_pass (exec togglePlayback w') t0))
  /\ well_formed w'.
Proof.
  intros Hwf Hok w'. subst w'.
  assert (E : exec (generateBeat fetched Midi_new) w = generated r b midi w)
    by (unfold exec; rewrite (generateBeat_success _ _ _ _ _ _ Hok);
        reflexivity).
  rewrite E. clear E.
  pose proof (well_formed_generated r b midi w Hwf) as Hwf'.
  pose proof (generated_fields r b midi w) as F. cbv zeta in F.
  destruct F as (Fc & Fd & Ft & Fs & Fp & _ & _).
  split; [exact Ft|]. split; [|split; [|split; [|split]]].
  - intros e He He'. rewrite Ft in He'.
    apply registrations_session in He'.
    apply (wf_timeline w Hwf) in He. lia.
  - intros s Hs. split.
    + rewrite Fd. apply in_or_app. right. exact Hs.
    + rewrite Fc. intros Hn. apply In_new_pool in Hn.
      apply (wf_held w Hwf) in Hs. unfold constructed in Hs. lia.
  - intros s. split; [apply (wf_no_orphan _ Hwf')|].
    intros Hs. split;
      [apply (wf_held _ Hwf'), Hs | apply (wf_held_live _ Hwf'), Hs].
  - intros t0. rewrite (loop_pass_started (generated r b midi w) t0 Fp).
    rewrite Ft.
    apply Forall_forall. intros c Hc. apply in_map_iff in Hc.
    destruct Hc as (e & <- & He). apply filter_In in He.
    destruct He as [He _]. apply registrations_session in He.
    rewrite Fc. split; [apply In_new_pool|];
      rewrite callback_session; exact He.
  - exact Hwf'.
Qed.

Lemma demo_playing_reachable : reachable demo_playing.
Proof.
  unfold demo_playing. apply reach_step, reach_step, reach_initial.
Qed.

Lemma regenerate_retires_previous_session_witness :
  well_formed demo_playing
  /\ generation_succeeds (Fulfilled plain_response) demo_parser
       plain_response demo_bytes demo_score
  /\ forall e, In e (Transport_timeline demo_playing) ->
       ~ In e (Transport_timeline
                 (exec (generateBeat (Fulfilled plain_response) demo_parser)
                    demo_playing)).
Proof.
  assert (W : well_formed demo_playing)
    by exact (reachable_well_formed _ demo_playing_reachable).
  assert (S : generation_succeeds (Fulfilled plain_response) demo_parser
                plain_response demo_bytes demo_score)
    by (repeat split).
  split; [exact W|]. split; [exact S|].
  exact (proj1 (proj2
           (regenerate_retires_previous_session _ _ _ _ _ _ W S))).
Defined.

(** ** Download *)










(** * The page as a whole *)

(** ** Every outcome of a generation *)

Lemma generateBeat_exec fetched Midi_new w :
  generateBeat fetched Midi_new w
  = (Returned tt, after_generateBeat fetched Midi_new w).
Proof.
  unfold after_generateBeat.
  destruct fetched as [r|reason];
    [|apply generateBeat_fetch_failure; reflexivity].
  destruct (ok r) eqn:Hok;
    [|apply generateBeat_fetch_failure; split; [exact Hok | reflexivity]].
  destruct (blob r) as [b|reason] eqn:Hb.
  - destruct (Midi_new b) as [midi|reason] eqn:Hm.
    + apply generateBeat_success. repeat split; assumption.
    + unfold generateBeat. rewrite prologue_exec.
      unfold stored, titled.
      replace (selectedStyle w) with (selectedStyle (prepared w))
        by (destruct w; reflexivity).
      replace (objectURLs w) with (objectURLs (prepared w))
        by (destruct w; reflexivity).
      generalize (prepared w) as w0. intros w0.
      unfold try_catch_finally.
      cbn [await]. rewrite bind_ret, Hok. cbn [negb].
      rewrite bind_ret, bind_gets.
      unfold setSongTitle at 1. rewrite bind_modify, Hb. cbn [await].
      rewrite bind_ret.
      unfold createObjectURL at 1. unfold bind at 1.
      unfold setMidiUrl at 1. rewrite bind_modify, Hm. cbn [await].
      reflexivity.
  - unfold generateBeat. rewrite prologue_exec.
    unfold titled.
    replace (selectedStyle w) with (selectedStyle (prepared w))
      by (destruct w; reflexivity).
    generalize (prepared w) as w0. intros w0.
    unfold try_catch_finally.
    cbn [await]. rewrite bind_ret, Hok. cbn [negb].
    rewrite bind_ret, bind_gets.
    unfold setSongTitle at 1. rewrite bind_modify, Hb. cbn [await].
    reflexivity.
Qed.

Lemma exec_generateBeat fetched Midi_new w :
  exec (generateBeat fetched Midi_new) w = after_generateBeat fetched Midi_new w.
Proof. unfold exec. rewrite generateBeat_exec. reflexivity. Qed.

Lemma reported_prepared_flags error w :
  let w' := reported error (prepared w) in
  isGenerating w' = false /\ isPlaying w' = false
  /\ Transport_state w' = stopped /\ isBeatReady w' = false
  /\ alerts w' = (alerts w ++ [("Error: " ++ error)%string])%list.
Proof. destruct w. repeat split; reflexivity. Qed.

Lemma reported_titled_flags error r w :
  let w' := reported error (titled r w) in
  isGenerating w' = false /\ isPlaying w' = false
  /\ Transport_state w' = stopped /\ isBeatReady w' = false
  /\ alerts w' = (alerts w ++ [("Error: " ++ error)%string])%list.
Proof. destruct w. repeat split; reflexivity. Qed.

Lemma reported_stored_flags error r b w :
  let w' := reported error (stored r b w) in
  isGenerating w' = false /\ isPlaying w' = false
  /\ Transport_state w' = stopped /\ isBeatReady w' = false
  /\ alerts w' = (alerts w ++ [("Error: " ++ error)%string])%list.
Proof. destruct w. repeat split; reflexivity. Qed.

Lemma generated_flags r b midi w :
  let w' := generated r b midi w in
  isGenerating w' = false /\ isPlaying w' = false
  /\ Transport_state w' = stopped /\ isBeatReady w' = true
  /\ alerts w' = alerts w.
Proof. destruct w. repeat split; reflexivity. Qed.

(** Taken as one step, with the audio context started: whatever the
    fetch, the body and the decoder do, [generateBeat] completes and
    leaves [isGenerating] false, [isPlaying] false and the transport
    stopped, [isBeatReady] ending true, with no alert raised, exactly when
    every step succeeded, and false with exactly one alert otherwise. *)
Lemma generateBeat_always_settles (fetched : Settled Response)
    (Midi_new : Blob -> Settled Midi) (w : World) :
  let w' := exec (generateBeat fetched Midi_new) w in
  generateBeat fetched Midi_new w = (Returned tt, w')
  /\ isGenerating w' = false
  /\ isPlaying w' = false
  /\ Transport_state w' = stopped
  /\ ((isBeatReady w' = true /\ alerts w' = alerts w
       /\ exists r b midi, generation_succeeds fetched Midi_new r b midi)
      \/ (isBeatReady w' = false
          /\ (forall r b midi, ~ generation_succeeds fetched Midi_new r b midi)
          /\ exists error,
               alerts w' = (alerts w ++ [("Error: " ++ error)%string])%list)).
Proof.
  intros w'. subst w'. rewrite exec_generateBeat.
  split; [apply generateBeat_exec|].
  unfold after_generateBeat, generation_succeeds.
  destruct fetched as [r|reason].
  2:{ destruct (reported_prepared_flags reason w) as (A & B & C & D & E).
      repeat (split; [assumption|]). right. split; [assumption|]. split.
      - intros r b midi (H & _). discriminate H.
      - exists reason. exact E. }
  destruct (ok r) eqn:Hok.
  2:{ destruct (reported_prepared_flags "Error: Generation failed" w)
        as (A & B & C & D & E).
      repeat (split; [assumption|]). right. split; [assumption|]. split.
      - intros r' b midi (H & H' & _). inversion H; subst. congruence.
      - eexists. exact E. }
  destruct (blob r) as [b|reason] eqn:Hb.
  2:{ destruct (reported_titled_flags reason r w) as (A & B & C & D & E).
      repeat (split; [assumption|]). right. split; [assumption|]. split.
      - intros r' b midi (H & _ & H' & _). inversion H; subst. congruence.
      - exists reason. exact E. }
  destruct (Midi_new b) as [midi|reason] eqn:Hm.
  2:{ destruct (reported_stored_flags reason r b w) as (A & B & C & D & E).
      repeat (split; [assumption|]). right. split; [assumption|]. split.
      - intros r' b' midi (H & _ & H' & H''). inversion H; subst.
        rewrite Hb in H'. inversion H'; subst. congruence.
      - exists reason. exact E. }
  destruct (generated_flags r b midi w) as (A & B & C & D & E).
  repeat (split; [assumption|]). left. split; [assumption|].
  split; [assumption|]. exists r, b, midi. repeat split; assumption.
Qed.

Lemma consistent_initial : consistent initial.
Proof.
  constructor; cbn; try reflexivity; try discriminate. intros _. split; reflexivity.
Qed.

Lemma consistent_not_ready w :
  isGenerating w = false -> isPlaying w = false -> Transport_state w = stopped ->
  isBeatReady w = false -> synths_current w = [] -> Transport_timeline w = [] ->
  consistent w.
Proof.
  intros Hg Hp Ht Hr Hs Hl. constructor.
  - exact Hg.
  - rewrite Hp. exact Ht.
  - rewrite Hp. discriminate.
  - rewrite Hr. discriminate.
  - intros _. split; assumption.
Qed.

Lemma consistent_after_generateBeat fetched Midi_new w :
  consistent (after_generateBeat fetched Midi_new w).
Proof.
  unfold after_generateBeat.
  destruct fetched as [r|reason];
    [|apply consistent_not_ready; destruct w; reflexivity].
  destruct (ok r);
    [|apply consistent_not_ready; destruct w; reflexivity].
  destruct (blob r) as [b|reason];
    [|apply consistent_not_ready; destruct w; reflexivity].
  destruct (Midi_new b) as [midi|reason];
    [|apply consistent_not_ready; destruct w; reflexivity].
  constructor.
  - destruct w; reflexivity.
  - destruct w; reflexivity.
  - intros _. destruct w; reflexivity.
  - intros _. destruct w. repeat split; try reflexivity; try discriminate.
    cbn. lia.
  - replace (isBeatReady (generated r b midi w)) with true
      by (destruct w; reflexivity).
    discriminate.
Qed.

Lemma consistent_togglePlayback w :
  consistent w -> isBeatReady w = true -> consistent (exec togglePlayback w).
Proof.
  intros [Hg Ht Hp Hr Hn] Hready.
  unfold exec. rewrite togglePlayback_exec. cbn [snd].
  specialize (Hr Hready). destruct Hr as (R1 & R2 & R3 & R4 & R5 & R6).
  constructor.
  - destruct w; exact Hg.
  - destruct (isPlaying w) eqn:P; destruct w; reflexivity.
  - intros _. destruct w; exact Hready.
  - intros _. destruct w; cbn in *. repeat split; assumption.
  - intros H. destruct w; cbn in *. congruence.
Qed.

Lemma consistent_eq w1 w2 :
  (isGenerating w1, isPlaying w1, isBeatReady w1, Transport_state w1)
  = (isGenerating w2, isPlaying w2, isBeatReady w2, Transport_state w2) ->
  (synths_current w1, sessions w1, midiUrl w1, songTitle w1)
  = (synths_current w2, sessions w2, midiUrl w2, songTitle w2) ->
  (Transport_loop w1, Transport_loopStart w1, Transport_timeline w1)
  = (Transport_loop w2, Transport_loopStart w2, Transport_timeline w2) ->
  consistent w1 -> consistent w2.
Proof.
  intros E1 E2 E3 [Hg Ht Hp Hr Hn].
  inversion E1 as [[A1 A2 A3 A4]]. inversion E2 as [[B1 B2 B3 B4]].
  inversion E3 as [[C1 C2 C3]].
  constructor; rewrite <- ?A1, <- ?A2, <- ?A3, <- ?A4, <- ?B1, <- ?B2,
    <- ?B3, <- ?B4, <- ?C1, <- ?C2, <- ?C3; assumption.
Qed.

Lemma reachable_consistent w : reachable w -> consistent w.
Proof.
  induction 1 as [|a w _ IH]; [apply consistent_initial|].
  destruct a; cbn [perform].
  - unfold exec, click_generate. rewrite bind_gets.
    destruct (isGenerating w); [exact IH|].
    rewrite generateBeat_exec. apply consistent_after_generateBeat.
  - unfold exec, click_play. rewrite bind_gets.
    destruct (isBeatReady w) eqn:Hr; [|exact IH].
    apply (consistent_togglePlayback w IH Hr).
  - unfold exec, click_download. rewrite bind_gets.
    destruct (negb (isBeatReady w)); [exact IH|].
    rewrite downloadBeat_exec.
    destruct (midiUrl w) as [[|c u]|]; try exact IH.
    apply (consistent_eq w); [destruct w; reflexivity .. | exact IH].
  - apply (consistent_eq w); [destruct w; reflexivity .. | exact IH].
  - apply (consistent_eq w); [destruct w; reflexivity .. | exact IH].
  - apply (consistent_eq w); [destruct w; reflexivity .. | exact IH].
  - apply (consistent_eq w); [destruct w; reflexivity .. | exact IH].
Qed.

(** X2.  Between two handlers, in every world the user can reach:
    [isGenerating] is false; the transport is started exactly when
    [isPlaying] is true; and either no beat is ready, nothing plays, no
    synth is held and the timeline is empty, or a beat is ready, the six
    synths of the latest run are held, an artifact URL and a title are
    stored, and the transport loops from 0. *)
Theorem page_flags_agree (w : World) :
  reachable w ->
  isGenerating w = false
  /\ Transport_state w = (if isPlaying w then started else stopped)
  /\ ((isBeatReady w = false /\ isPlaying w = false
       /\ synths_current w = [] /\ Transport_timeline w = [])
      \/ (isBeatReady w = true
          /\ synths_current w
             = map (fun v => mkSynth v (Nat.pred (sessions w)))
                 synth_constants
          /\ midiUrl w <> None /\ songTitle w <> None
          /\ Transport_loop w = true /\ Transport_loopStart w = 0%Q)).
Proof.
  intros H. destruct (reachable_consistent w H) as [Hg Ht Hp Hr Hn].
  split; [exact Hg|]. split; [exact Ht|].
  destruct (isBeatReady w) eqn:E.
  - right. destruct (Hr eq_refl) as (R1 & _ & R3 & R4 & R5 & R6).
    repeat split; assumption.
  - left. destruct (Hn eq_refl) as [N1 N2].
    destruct (isPlaying w); [specialize (Hp eq_refl); discriminate|].
    repeat split; assumption.
Qed.

Lemma page_flags_agree_witness :
  reachable demo_playing
  /\ Transport_state demo_playing
     = (if isPlaying demo_playing then started else stopped).
Proof.
  split; [apply demo_playing_reachable|].
  exact (proj1 (proj2 (page_flags_agree demo_playing demo_playing_reachable))).
Defined.



Lemma beat_step a w : is_generate a = false -> beat (exec (perform a) w) = beat w.
Proof.
  destruct a; cbn [is_generate perform]; intros H; try discriminate H.
  - unfold exec, click_play. rewrite bind_gets.
    destruct (negb (isBeatReady w)); [reflexivity|].
    rewrite togglePlayback_exec. destruct w; reflexivity.
  - unfold exec, click_download. rewrite bind_gets.
    destruct (negb (isBeatReady w)); [reflexivity|].
    rewrite downloadBeat_exec.
    destruct (midiUrl w) as [[|c u]|]; try reflexivity.
  - destruct w; reflexivity.
  - destruct w; reflexivity.
  - destruct w; reflexivity.
  - destruct w; reflexivity.
Qed.

Lemma beat_run (l : list action) (w : World) :
  forallb (fun a => negb (is_generate a)) l = true ->
  beat (run l w) = beat w.
Proof.
  revert w. induction l as [|a l IH]; intros w H; [reflexivity|].
  cbn [forallb] in H. apply andb_true_iff in H. destruct H as [Ha Hl].
  cbn [run]. rewrite (IH _ Hl). apply beat_step.
  apply negb_true_iff, Ha.
Qed.

(** X4.  Nothing but Generate touches the configured beat: after any
    sequence of Play, Download, style, tempo, length and chord actions the
    transport's tempo and loop settings, its timeline, the synths held and
    disposed, the stored URL and title and the object URLs are what they
    were.  In particular moving the tempo slider does not retime a beat
    that is loaded. *)
Theorem controls_leave_beat_alone (l : list action) (w : World) :
  forallb (fun a => negb (is_generate a)) l = true ->
  beat (run l w) = beat w.
Proof. apply beat_run. Qed.

Lemma controls_leave_beat_alone_witness :
  forallb (fun a => negb (is_generate a))
    [SetBpm 140; SelectStyle (mkStyle "trap" "Trap" ""); Play; SetBars 8]
  = true
  /\ Transport_bpm
       (run [SetBpm 140; SelectStyle (mkStyle "trap" "Trap" ""); Play;
             SetBars 8] demo_playing)
     = Transport_bpm demo_playing.
Proof.
  split; [reflexivity|].
  exact (f_equal (fun b => fst (fst (fst (fst (fst (fst b))))))
           (controls_leave_beat_alone
              [SetBpm 140; SelectStyle (mkStyle "trap" "Trap" ""); Play;
               SetBars 8] demo_playing eq_refl)).
Defined.

(** X5.  With the handlers run one after the other, no click on
    Generate coming while a generation is in flight: unmounting a page the
    user has reached runs [cleanupAudio] without throwing and leaves
    nothing behind: no synth held, an empty timeline, the transport
    stopped; every synth ever constructed is in the log of [dispose()]
    calls, none of them twice, so none is live. *)
Theorem unmount_releases_everything (w : World) :
  reachable w ->
  let w' := exec unmount w in
  unmount w = (Returned tt, w')
  /\ synths_current w' = []
  /\ Transport_timeline w' = []
  /\ Transport_state w' = stopped
  /\ NoDup (disposed w')
  /\ (forall s, constructed w s <-> In s (disposed w'))
  /\ (forall s, ~ live w' s).
Proof.
  intros H w'. subst w'. unfold unmount, exec.
  rewrite cleanupAudio_exec. cbn [snd].
  pose proof (well_formed_cleaned w (reachable_well_formed w H)) as W.
  destruct (cleaned_audio w) as (Ec & Ed & Et & Es).
  split; [reflexivity|]. split; [exact Ec|]. split; [exact Et|].
  split; [destruct w; reflexivity|].
  split; [|split].
  - pose proof (wf_once _ W) as N. rewrite Ec, app_nil_r in N. exact N.
  - intros s. split.
    + intros Hc.
      destruct (in_dec
                  (fun a b : Synth =>
                     ltac:(decide equality;
                           [apply Nat.eq_dec | decide equality]))
                  s (disposed (cleaned w))) as [Hin|Hout];
        [exact Hin|].
      exfalso. assert (L : live (cleaned w) s).
      { split; [unfold constructed in *; rewrite Es; exact Hc | exact Hout]. }
      apply (wf_no_orphan _ W) in L. rewrite Ec in L. contradiction.
    + intros Hin. apply (wf_disposed _ W) in Hin.
      unfold constructed in *. rewrite Es in Hin. exact Hin.
  - intros s L. apply (wf_no_orphan _ W) in L. rewrite Ec in L. contradiction.
Qed.

Lemma unmount_releases_everything_witness :
  reachable demo_playing
  /\ synths_current (exec unmount demo_playing) = [].
Proof.
  split; [apply demo_playing_reachable|].
  exact (proj1 (proj2
           (unmount_releases_everything demo_playing demo_playing_reachable))).
Defined.






Lemma after_generateBeat_controls fetched Midi_new w :
  let w' := after_generateBeat fetched Midi_new w in
  selectedStyle w' = selectedStyle w /\ bpm w' = bpm w /\ bars w' = bars w
  /\ (Transport_bpm w' = Transport_bpm w \/ Transport_bpm w' = bpm w).
Proof.
  unfold after_generateBeat.
  destruct fetched as [r|reason];
    [|destruct w; repeat split; left; reflexivity].
  destruct (ok r); [|destruct w; repeat split; left; reflexivity].
  destruct (blob r) as [b|reason];
    [|destruct w; repeat split; left; reflexivity].
  destruct (Midi_new b) as [midi|reason];
    [|destruct w; repeat split; left; reflexivity].
  destruct w; repeat split; right; reflexivity.
Qed.

Lemma within_controls_eq w1 w2 :
  selectedStyle w2 = selectedStyle w1 -> bpm w2 = bpm w1 ->
  bars w2 = bars w1 -> Transport_bpm w2 = Transport_bpm w1 ->
  within_controls w1 -> within_controls w2.
Proof. unfold within_controls. intros -> -> -> ->. exact (fun H => H). Qed.

Lemma ui_reachable_within_controls w : ui_reachable w -> within_controls w.
Proof.
  induction 1 as [|a w Ha _ IH].
  - unfold within_controls. cbn. repeat split; try lia; auto.
  - destruct a; cbn [perform from_controls] in *.
    + unfold exec, click_generate. rewrite bind_gets.
      destruct (isGenerating w); [exact IH|].
      rewrite generateBeat_exec. cbn [snd].
      destruct (after_generateBeat_controls fetched Midi_new w)
        as (E1 & E2 & E3 & E4).
      destruct IH as (I1 & I2 & I3 & I4). unfold within_controls.
      rewrite E1, E2, E3. repeat split; try assumption; try lia;
        destruct E4 as [E4|E4]; rewrite E4; lia.
    + unfold exec, click_play. rewrite bind_gets.
      destruct (negb (isBeatReady w)); [exact IH|].
      rewrite togglePlayback_exec.
      apply (within_controls_eq w); [destruct w; reflexivity .. | exact IH].
    + unfold exec, click_download. rewrite bind_gets.
      destruct (negb (isBeatReady w)); [exact IH|].
      rewrite downloadBeat_exec.
      destruct (midiUrl w) as [[|c u]|]; exact IH.
    + destruct IH as (I1 & I2 & I3 & I4). unfold within_controls.
      replace (selectedStyle (exec (setSelectedStyle (id style)) w))
        with (id style) by (destruct w; reflexivity).
      replace (bpm (exec (setSelectedStyle (id style)) w)) with (bpm w)
        by (destruct w; reflexivity).
      replace (bars (exec (setSelectedStyle (id style)) w)) with (bars w)
        by (destruct w; reflexivity).
      replace (Transport_bpm (exec (setSelectedStyle (id style)) w))
        with (Transport_bpm w) by (destruct w; reflexivity).
      repeat split; try assumption; try lia. apply in_map, Ha.
    + destruct IH as (I1 & I2 & I3 & I4). unfold within_controls.
      replace (selectedStyle (exec (setBpm b) w)) with (selectedStyle w)
        by (destruct w; reflexivity).
      replace (bpm (exec (setBpm b) w)) with b by (destruct w; reflexivity).
      replace (bars (exec (setBpm b) w)) with (bars w)
        by (destruct w; reflexivity).
      replace (Transport_bpm (exec (setBpm b) w)) with (Transport_bpm w)
        by (destruct w; reflexivity).
      repeat split; try assumption; lia.
    + destruct IH as (I1 & I2 & I3 & I4). unfold within_controls.
      replace (selectedStyle (exec (setBars b) w)) with (selectedStyle w)
        by (destruct w; reflexivity).
      replace (bpm (exec (setBars b) w)) with (bpm w)
        by (destruct w; reflexivity).
      replace (bars (exec (setBars b) w)) with b by (destruct w; reflexivity).
      replace (Transport_bpm (exec (setBars b) w)) with (Transport_bpm w)
        by (destruct w; reflexivity).
      repeat split; try assumption; lia.
    + apply (within_controls_eq w); [destruct w; reflexivity .. | exact IH].
Qed.

Lemma ui_reachable_reachable w : ui_reachable w -> reachable w.
Proof. induction 1; [apply reach_initial | apply reach_step; assumption]. Qed.

(** X8.  As long as the values come from the controls of the page, the
    selected style is one of [STYLES], the tempo lies between 60 and 180,
    the length is 4, 8 or 16 bars, and the tempo of the transport lies
    between 60 and 180 as well. *)
Theorem controls_stay_in_range (w : World) :
  ui_reachable w ->
  In (selectedStyle w) (map id STYLES)
  /\ 60 <= bpm w <= 180
  /\ In (bars w) [4; 8; 16]
  /\ 60 <= Transport_bpm w <= 180.
Proof. apply ui_reachable_within_controls. Qed.

Lemma controls_stay_in_range_witness :
  ui_reachable (exec (perform (SetBpm 140)) initial)
  /\ 60 <= bpm (exec (perform (SetBpm 140)) initial) <= 180.
Proof.
  assert (U : ui_reachable (exec (perform (SetBpm 140)) initial))
    by (apply ui_step; [cbn; lia | apply ui_initial]).
  split; [exact U|].
  exact (proj1 (proj2 (controls_stay_in_range _ U))).
Defined.

Lemma timeline_held_eq w1 w2 :
  Transport_timeline w2 = Transport_timeline w1 ->
  synths_current w2 = synths_current w1 ->
  timeline_held w1 -> timeline_held w2.
Proof. unfold timeline_held. intros -> ->. exact (fun H => H). Qed.

Lemma timeline_held_empty w : Transport_timeline w = [] -> timeline_held w.
Proof. unfold timeline_held. intros ->. contradiction. Qed.

Lemma timeline_held_after_generateBeat fetched Midi_new w :
  timeline_held (after_generateBeat fetched Midi_new w).
Proof.
  unfold after_generateBeat.
  destruct fetched as [r|reason];
    [|apply timeline_held_empty; destruct w; reflexivity].
  destruct (ok r); [|apply timeline_held_empty; destruct w; reflexivity].
  destruct (blob r) as [b|reason];
    [|apply timeline_held_empty; destruct w; reflexivity].
  destruct (Midi_new b) as [midi|reason];
    [|apply timeline_held_empty; destruct w; reflexivity].
  destruct (generated_fields r b midi w) as (Fc & _ & Ft & _).
  unfold timeline_held. rewrite Fc, Ft. intros e He.
  apply registrations_session in He. rewrite He. reflexivity.
Qed.

Lemma reachable_timeline_held w : reachable w -> timeline_held w.
Proof.
  induction 1 as [|a w _ IH]; [apply timeline_held_empty; reflexivity|].
  destruct a; cbn [perform].
  - unfold exec, click_generate. rewrite bind_gets.
    destruct (isGenerating w); [exact IH|].
    rewrite generateBeat_exec. apply timeline_held_after_generateBeat.
  - unfold exec, click_play. rewrite bind_gets.
    destruct (negb (isBeatReady w)); [exact IH|].
    rewrite togglePlayback_exec.
    apply (timeline_held_eq w); [destruct w; reflexivity .. | exact IH].
  - unfold exec, click_download. rewrite bind_gets.
    destruct (negb (isBeatReady w)); [exact IH|].
    rewrite downloadBeat_exec.
    destruct (midiUrl w) as [[|c u]|]; exact IH.
  - apply (timeline_held_eq w); [destruct w; reflexivity .. | exact IH].
  - apply (timeline_held_eq w); [destruct w; reflexivity .. | exact IH].
  - apply (timeline_held_eq w); [destruct w; reflexivity .. | exact IH].
  - apply (timeline_held_eq w); [destruct w; reflexivity .. | exact IH].
Qed.

Lemma loop_pass_In w t0 c :
  In c (loop_pass w t0) ->
  Transport_state w = started
  /\ exists e, In e (Transport_timeline w)
               /\ c = callback (ev_callback e) (t0 + ev_time e)%Q.
Proof.
  unfold loop_pass. destruct (Transport_state w); try contradiction.
  intros H. split; [reflexivity|]. apply in_map_iff in H.
  destruct H as (e & <- & He). apply filter_In in He.
  exists e. split; [apply He | reflexivity].
Qed.

(** X9.  With the handlers run one after the other, no click on
    Generate coming while a generation is in flight: in every world the
    user can reach, each call a pass over the loop issues goes to a synth
    that is held in [synths.current] and live, so that no callback
    triggers a disposed synth.  While [isPlaying] is false a pass issues
    no call at all. *)
Theorem calls_reach_live_synths_only (w : World) (t0 : Q) :
  reachable w ->
  Forall (fun c => In (call_synth c) (synths_current w)
                   /\ live w (call_synth c))
    (loop_pass w t0)
  /\ (isPlaying w = false -> loop_pass w t0 = []).
Proof.
  intros H.
  pose proof (reachable_well_formed w H) as W.
  pose proof (reachable_timeline_held w H) as T.
  destruct (reachable_consistent w H) as [_ Ht _ _ _].
  split.
  - apply Forall_forall. intros c Hc.
    apply loop_pass_In in Hc. destruct Hc as (_ & e & He & ->).
    assert (Hin : In (call_synth (callback (ev_callback e) (t0 + ev_time e)%Q))
                    (synths_current w)).
    { rewrite (T e He). apply In_new_pool. apply callback_session. }
    split; [exact Hin|]. split.
    + apply (wf_held w W), Hin.
    + apply (wf_held_live w W), Hin.
  - intros Hp. unfold loop_pass. rewrite Ht, Hp. reflexivity.
Qed.

Lemma calls_reach_live_synths_only_witness :
  reachable demo_playing
  /\ Forall (fun c => In (call_synth c) (synths_current demo_playing)
                      /\ live demo_playing (call_synth c))
       (loop_pass demo_playing 0).
Proof.
  split; [apply demo_playing_reachable|].
  exact (proj1 (calls_reach_live_synths_only demo_playing 0
                  demo_playing_reachable)).
Defined.

Lemma not_quotes_no_quote s : has_char dquote (not_quotes s) = false.
Proof.
  induction s as [|c s IH]; cbn [not_quotes]; [reflexivity|].
  destruct (Ascii.eqb c dquote) eqn:E; [reflexivity|].
  cbn [has_char]. rewrite E, IH. reflexivity.
Qed.

Lemma prefix_skip p s :
  prefix p s = true -> s = (p ++ skip (String.length p) s)%string.
Proof.
  revert s. induction p as [|a p IH]; intros s H; [reflexivity|].
  destruct s as [|c s]; cbn [prefix] in H; [discriminate|].
  destruct (ascii_dec a c) as [->|]; [|discriminate].
  cbn [String.length skip String.append]. f_equal. apply IH, H.
Qed.

Lemma filename_here_group s g :
  filename_here s = Some g ->
  g <> "" /\ has_char dquote g = false
  /\ exists rest,
       s = ("filename=" ++ rest)%string
       /\ (not_quotes rest = g
           \/ exists rest', rest = String dquote rest' /\ not_quotes rest' = g).
Proof.
  unfold filename_here.
  destruct (prefix "filename=" s) eqn:P; [|discriminate].
  apply prefix_skip in P. change (String.length "filename=") with 9%nat in P.
  destruct (skip 9 s) as [|c rest] eqn:K; [discriminate|].
  destruct (Ascii.eqb c dquote) eqn:E.
  - destruct (not_quotes rest) as [|d g'] eqn:N; [discriminate|].
    intros [= <-]. split; [discriminate|]. split.
    + rewrite <- N. apply not_quotes_no_quote.
    + exists (String c rest). split; [exact P|]. right.
      apply Ascii.eqb_eq in E. subst c. exists rest. split; [reflexivity|exact N].
  - intros [= <-]. split; [discriminate|]. split.
    + cbn [has_char]. rewrite E. apply not_quotes_no_quote.
    + exists (String c rest). split; [exact P|]. left.
      cbn [not_quotes]. rewrite E. reflexivity.
Qed.

Lemma match_filename_group (s g : string) :
  match_filename s = Some g ->
  g <> "" /\ has_char dquote g = false
  /\ exists before rest,
       s = (before ++ "filename=" ++ rest)%string
       /\ (not_quotes rest = g
           \/ exists rest', rest = String dquote rest' /\ not_quotes rest' = g).
Proof.
  induction s as [|c s IH]; cbn [match_filename].
  - destruct (filename_here "") eqn:F; [|discriminate].
    intros [= <-]. destruct (filename_here_group _ _ F) as (A & B & rest & E & D).
    split; [exact A|]. split; [exact B|]. exists "", rest. split; assumption.
  - destruct (filename_here (String c s)) eqn:F.
    + intros [= <-].
      destruct (filename_here_group _ _ F) as (A & B & rest & E & D).
      split; [exact A|]. split; [exact B|]. exists "", rest. split; assumption.
    + intros H. destruct (IH H) as (A & B & before & rest & E & D).
      split; [exact A|]. split; [exact B|].
      exists (String c before), rest. split; [|exact D].
      rewrite E. reflexivity.
Qed.

(** X10.  Whenever the expression of line 69 matches a header, the
    name it captures is not empty, contains no double quote, and is the
    run of characters other than the double quote that follows an
    occurrence of [filename=] and at most one opening quote. *)
Theorem suggested_name_is_a_quote_free_run (s g : string) :
  match_filename s = Some g ->
  g <> "" /\ has_char dquote g = false
  /\ exists before rest,
       s = (before ++ "filename=" ++ rest)%string
       /\ (not_quotes rest = g
           \/ exists rest', rest = String dquote rest' /\ not_quotes rest' = g).
Proof. apply match_filename_group. Qed.

Lemma suggested_name_is_a_quote_free_run_witness :
  match_filename "attachment; filename=beat.mid; size=3"
  = Some "beat.mid; size=3"
  /\ has_char dquote "beat.mid; size=3" = false.
Proof.
  split; [reflexivity|].
  exact (proj1 (proj2 (suggested_name_is_a_quote_free_run
                         "attachment; filename=beat.mid; size=3"
                         "beat.mid; size=3" eq_refl))).
Defined.

Lemma not_quotes_app fname x :
  has_char dquote fname = false ->
  not_quotes (fname ++ String dquote x) = fname.
Proof.
  induction fname as [|c f IH]; intros H.
  - reflexivity.
  - cbn [has_char] in H. apply orb_false_elim in H. destruct H as [Hc Hf].
    cbn [String.append not_quotes]. rewrite Hc, (IH Hf). reflexivity.
Qed.

Lemma not_quotes_id fname :
  has_char dquote fname = false -> not_quotes fname = fname.
Proof.
  induction fname as [|c f IH]; intros H; [reflexivity|].
  cbn [has_char] in H. apply orb_false_elim in H. destruct H as [Hc Hf].
  cbn [not_quotes]. rewrite Hc, (IH Hf). reflexivity.
Qed.

Lemma suggested_filename_Some style h :
  suggested_filename style (Some h)
  = match match_filename h with
    | Some g => g
    | None => default_filename style
    end.
Proof. destruct h; reflexivity. Qed.

(** X11.  A non-empty file name without double quotes, sent as
    [attachment; filename=] followed by the name, between quotes or bare,
    is recovered exactly, and is the file name [generateBeat] goes on
    with. *)
Theorem quoted_filename_round_trip (fname style : string) :
  fname <> "" -> has_char dquote fname = false ->
  match_filename (quoted_header fname) = Some fname
  /\ match_filename ("attachment; filename=" ++ fname) = Some fname
  /\ suggested_filename style (Some (quoted_header fname)) = fname.
Proof.
  intros Hne Hq.
  assert (Q : match_filename (quoted_header fname) = Some fname).
  { unfold quoted_header. cbn -[dquote]. rewrite Ascii.eqb_refl.
    rewrite (not_quotes_app fname "" Hq).
    destruct fname as [|c f]; [congruence | reflexivity]. }
  split; [exact Q|]. split.
  - destruct fname as [|c f]; [congruence|].
    cbn [has_char] in Hq. apply orb_false_elim in Hq. destruct Hq as [Hc Hf].
    cbn -[dquote]. rewrite Hc. rewrite (not_quotes_id _ Hf). reflexivity.
  - rewrite suggested_filename_Some, Q. reflexivity.
Qed.

Lemma quoted_filename_round_trip_witness :
  "Dark_Storm.mid" <> "" /\ has_char dquote "Dark_Storm.mid" = false
  /\ match_filename (quoted_header "Dark_Storm.mid") = Some "Dark_Storm.mid".
Proof.
  assert (N : "Dark_Storm.mid" <> "") by discriminate.
  split; [exact N|]. split; [reflexivity|].
  exact (proj1 (quoted_filename_round_trip "Dark_Storm.mid" "trap" N eq_refl)).
Defined.









Lemma objectURLs_step a w :
  exists added,
    objectURLs (exec (perform a) w) = (added ++ objectURLs w)%list
    /\ (List.length added <= if is_generate a then 1 else 0)%nat.
Proof.
  assert (Same : forall w', objectURLs w' = objectURLs w ->
            exists added, objectURLs w' = (added ++ objectURLs w)%list
                          /\ (List.length added <= 0)%nat).
  { intros w' E. exists []. split; [exact E | apply Nat.le_refl]. }
  destruct a; cbn [perform is_generate].
  - unfold exec, click_generate. rewrite bind_gets.
    destruct (isGenerating w); [exists []; split; [reflexivity | cbn; lia]|].
    rewrite generateBeat_exec. cbn [snd]. unfold after_generateBeat.
    destruct fetched as [r|reason];
      [|exists []; split; [destruct w; reflexivity | cbn; lia]].
    destruct (ok r);
      [|exists []; split; [destruct w; reflexivity | cbn; lia]].
    destruct (blob r) as [b|reason];
      [|exists []; split; [destruct w; reflexivity | cbn; lia]].
    exists [(("blob:" ++ decimal (List.length (objectURLs w)))%string, b)].
    split; [|cbn; lia].
    destruct (Midi_new b) as [midi|reason]; destruct w; reflexivity.
  - apply Same. unfold exec, click_play. rewrite bind_gets.
    destruct (negb (isBeatReady w)); [reflexivity|].
    rewrite togglePlayback_exec. destruct w; reflexivity.
  - apply Same. unfold exec, click_download. rewrite bind_gets.
    destruct (negb (isBeatReady w)); [reflexivity|].
    rewrite downloadBeat_exec.
    destruct (midiUrl w) as [[|c u]|]; reflexivity.
  - apply Same. destruct w; reflexivity.
  - apply Same. destruct w; reflexivity.
  - apply Same. destruct w; reflexivity.
  - apply Same. destruct w; reflexivity.
Qed.

(** X14.  Object URLs are never revoked: after any sequence of actions
    the earlier bindings are all still there, and at most one was added
    per Generate. *)
Theorem object_urls_only_grow (l : list action) (w : World) :
  exists added,
    objectURLs (run l w) = (added ++ objectURLs w)%list
    /\ (List.length added <= List.length (filter is_generate l))%nat.
Proof.
  revert w. induction l as [|a l IH]; intros w.
  - exists []. split; [reflexivity | cbn; lia].
  - cbn [run]. destruct (IH (exec (perform a) w)) as (added & E & L).
    destruct (objectURLs_step a w) as (one & S & L1).
    exists (added ++ one)%list. rewrite E, S, <- app_assoc.
    split; [reflexivity|]. rewrite length_app. cbn [filter].
    destruct (is_generate a); cbn [List.length]; lia.
Qed.



(** ** Runs that overlap *)

Lemma generateBeat_begin_exec env w :
  generateBeat_begin env w
  = (Returned (mkRun (selectedStyle w) (bpm w) env AwaitAudio), cleaned w).
Proof.
  unfold generateBeat_begin. rewrite bind_gets, bind_gets.
  rewrite (bind_returned _ _ _ _ _ (cleanupAudio_exec w)). reflexivity.
Qed.

Lemma setupSynthsAndSchedule_closed_exec tempo midi w :
  tempo = bpm w ->
  setupSynthsAndSchedule_closed tempo midi w = (Returned tt, configured midi w).
Proof.
  intros ->. unfold setupSynthsAndSchedule_closed, configured.
  unfold new_session at 1. unfold bind at 1.
  rewrite !bind_modify.
  destruct midi as [ts]. cbn [tracks].
  rewrite forEach_tracks. reflexivity.
Qed.

Lemma in_try_thrown body error w w' :
  body w = (Thrown error, w') -> in_try body w = (Returned None, reported error w').
Proof. intros H. unfold in_try. rewrite H. reflexivity. Qed.

Lemma in_try_returned body next w w' :
  body w = (Returned next, w') -> in_try body w = (Returned next, w').
Proof. intros H. unfold in_try. rewrite H. reflexivity. Qed.

Lemma resume_audio s t env w :
  env_audio env = Fulfilled tt ->
  generateBeat_resume (mkRun s t env AwaitAudio) w
  = (Returned (Some (mkRun s t env AwaitFetch)),
     set_songTitle None
       (set_midiUrl None
          (set_isBeatReady false
             (set_isGenerating true
                (set_console (console w ++ ["Audio context started"])
                   (set_context_running true w)))))).
Proof.
  intros H. unfold generateBeat_resume. cbn [run_at run_env]. rewrite H.
  reflexivity.
Qed.

Lemma resume_audio_rejected s t env error w :
  env_audio env = Rejected error ->
  generateBeat_resume (mkRun s t env AwaitAudio) w = (Thrown error, w).
Proof.
  intros H. unfold generateBeat_resume. cbn [run_at run_env]. rewrite H.
  reflexivity.
Qed.

Lemma resume_fetch_failed s t env error w :
  fetch_fails (env_fetched env) error ->
  generateBeat_resume (mkRun s t env AwaitFetch) w
  = (Returned None, reported error w).
Proof.
  intros H. unfold generateBeat_resume. cbn [run_at run_env].
  apply in_try_thrown.
  destruct (env_fetched env) as [r|reason]; cbn in H.
  - destruct H as [Hok ->]. cbn [await]. rewrite bind_ret, Hok. reflexivity.
  - subst. reflexivity.
Qed.

Lemma resume_fetch s t env r w :
  env_fetched env = Fulfilled r -> ok r = true ->
  generateBeat_resume (mkRun s t env AwaitFetch) w
  = (Returned (Some (mkRun s t env (AwaitBlob r))),
     set_songTitle
       (Some (replace ".mid" "" (suggested_filename s (Content_Disposition r))))
       w).
Proof.
  intros H Hok. unfold generateBeat_resume. cbn [run_at run_env run_style].
  apply in_try_returned. rewrite H. cbn [await]. rewrite bind_ret, Hok.
  reflexivity.
Qed.

Lemma resume_blob_failed s t env r error w :
  blob r = Rejected error ->
  generateBeat_resume (mkRun s t env (AwaitBlob r)) w
  = (Returned None, reported error w).
Proof.
  intros H. unfold generateBeat_resume. cbn [run_at run_env].
  apply in_try_thrown. rewrite H. reflexivity.
Qed.

Lemma resume_blob s t env r b w :
  blob r = Fulfilled b ->
  generateBeat_resume (mkRun s t env (AwaitBlob r)) w
  = (Returned (Some (mkRun s t env (AwaitArrayBuffer b))),
     set_midiUrl
       (Some ("blob:" ++ decimal (List.length (objectURLs w)))%string)
       (set_objectURLs
          ((("blob:" ++ decimal (List.length (objectURLs w)))%string, b)
             :: objectURLs w) w)).
Proof.
  intros H. unfold generateBeat_resume. cbn [run_at run_env].
  apply in_try_returned. rewrite H. reflexivity.
Qed.

Lemma resume_buffer_failed s t env b error w :
  env_Midi_new env b = Rejected error ->
  generateBeat_resume (mkRun s t env (AwaitArrayBuffer b)) w
  = (Returned None, reported error w).
Proof.
  intros H. unfold generateBeat_resume. cbn [run_at run_env].
  apply in_try_thrown. rewrite H. reflexivity.
Qed.

Lemma resume_buffer s t env b midi w :
  env_Midi_new env b = Fulfilled midi -> t = bpm w ->
  generateBeat_resume (mkRun s t env (AwaitArrayBuffer b)) w
  = (Returned None,
     set_isGenerating false (set_isBeatReady true (configured midi w))).
Proof.
  intros H Ht. unfold generateBeat_resume. cbn [run_at run_env run_bpm].
  apply in_try_returned. rewrite H. cbn [await]. rewrite bind_ret.
  rewrite (bind_returned _ _ _ _ _
             (setupSynthsAndSchedule_closed_exec t midi w Ht)).
  reflexivity.
Qed.

Lemma generateBeat_run_exec env w :
  env_audio env = Fulfilled tt ->
  generateBeat_run env w
  = (Returned tt, after_generateBeat (env_fetched env) (env_Midi_new env) w).
Proof.
  intros Ha. unfold generateBeat_run.
  rewrite (bind_returned _ _ _ _ _ (generateBeat_begin_exec env w)).
  cbn [generateBeat_finish].
  rewrite (bind_returned _ _ _ _ _ (resume_audio _ _ _ _ Ha)).
  unfold after_generateBeat.
  destruct (env_fetched env) as [r|reason] eqn:Hf.
  2:{ rewrite (bind_returned _ _ _ _ _
                 (resume_fetch_failed _ _ env reason _
                    ltac:(rewrite Hf; reflexivity))).
      destruct w; reflexivity. }
  destruct (ok r) eqn:Hok.
  2:{ rewrite (bind_returned _ _ _ _ _
                 (resume_fetch_failed _ _ env "Error: Generation failed" _
                    ltac:(rewrite Hf; split; [exact Hok | reflexivity]))).
      destruct w; reflexivity. }
  rewrite (bind_returned _ _ _ _ _ (resume_fetch _ _ env r _ Hf Hok)).
  destruct (blob r) as [b|reason] eqn:Hb.
  2:{ rewrite (bind_returned _ _ _ _ _
                 (resume_blob_failed _ _ env r reason _ Hb)).
      destruct w; reflexivity. }
  rewrite (bind_returned _ _ _ _ _ (resume_blob _ _ env r b _ Hb)).
  destruct (env_Midi_new env b) as [midi|reason] eqn:Hm.
  2:{ rewrite (bind_returned _ _ _ _ _
                 (resume_buffer_failed _ _ env b reason _ Hm)).
      destruct w; reflexivity. }
  match goal with
  | |- bind (generateBeat_resume (mkRun ?s ?t _ _)) _ ?W = _ =>
      assert (Ht : t = bpm W) by (destruct w; reflexivity);
      rewrite (bind_returned _ _ _ _ _ (resume_buffer s t env b midi W Hm Ht))
  end.
  destruct w; reflexivity.
Qed.

Lemma bind_returns {A B} (P : B -> Prop) (m : M A) (k : A -> M B) :
  (forall a w b w', k a w = (Returned b, w') -> P b) ->
  forall w b w', bind m k w = (Returned b, w') -> P b.
Proof.
  intros H w b w'. unfold bind. destruct (m w) as [[a|e] w1].
  - apply H.
  - discriminate.
Qed.

Lemma in_try_returns (P : option Run -> Prop) body :
  P None ->
  (forall w o w', body w = (Returned o, w') -> P o) ->
  forall w o w', in_try body w = (Returned o, w') -> P o.
Proof.
  intros HN H w o w'. unfold in_try.
  destruct (body w) as [[o1|e] w1] eqn:E.
  - intros [= <- <-]. apply (H _ _ _ E).
  - intros [= <- _]. exact HN.
Qed.

Lemma resume_progress r w r' w' :
  generateBeat_resume r w = (Returned (Some r'), w') ->
  (awaits_left (run_at r') < awaits_left (run_at r))%nat
  /\ run_env r' = run_env r /\ run_style r' = run_style r
  /\ run_bpm r' = run_bpm r.
Proof.
  set (P := fun o : option Run =>
              match o with
              | Some r' =>
                  (awaits_left (run_at r') < awaits_left (run_at r))%nat
                  /\ run_env r' = run_env r /\ run_style r' = run_style r
                  /\ run_bpm r' = run_bpm r
              | None => True
              end).
  intros H. change (P (Some r')). revert H.
  generalize (Some r') as o. intros o. revert w o w'.
  unfold generateBeat_resume.
  destruct r as [s t env [| |resp|b]]; cbn [run_at run_env run_style run_bpm] in *.
  - repeat (apply bind_returns; intros ?).
    intros w o w' [= <- _]. subst P. cbn. repeat split. lia.
  - apply in_try_returns; [exact I|].
    repeat (apply bind_returns; intros ?).
    intros w o w' [= <- _]. subst P. cbn. repeat split. lia.
  - apply in_try_returns; [exact I|].
    repeat (apply bind_returns; intros ?).
    intros w o w' [= <- _]. subst P. cbn. repeat split. lia.
  - apply in_try_returns; [exact I|].
    repeat (apply bind_returns; intros ?).
    intros w o w' [= <- _]. exact I.
Qed.

Lemma page_run_idle n w :
  page_run (repeat (Settle 0) n) (mkPage w []) = mkPage w [].
Proof. induction n as [|n IH]; [reflexivity | exact IH]. Qed.

Lemma page_run_alone n r w :
  (awaits_left (run_at r) <= n)%nat ->
  page_run (repeat (Settle 0) n) (mkPage w [r])
  = mkPage (exec (generateBeat_finish n r) w) [].
Proof.
  revert r w. induction n as [|n IH]; intros r w Hn.
  - destruct (run_at r); cbn in Hn; lia.
  - cbn [repeat page_run page_step world in_flight nth_error].
    unfold exec. cbn [generateBeat_finish]. unfold bind at 1.
    destruct (generateBeat_resume r w) as [[[r'|]|e] w'] eqn:E;
      cbn [update_run snd].
    + apply resume_progress in E. apply IH. lia.
    + apply page_run_idle.
    + apply page_run_idle.
Qed.

(** C9.  Session exclusivity does not survive two overlapping runs.  At
    mount the Generate button is still enabled after a first click, the
    first run being suspended on line 54 with [isGenerating] not yet set.
    When a second click comes then and both runs go on to succeed, both
    scores end up on the timeline; the synths of the first run are
    neither held nor disposed; and a pass over the loop triggers the
    synths of the first run for the notes of the first score, next to
    the second. *)
Theorem overlapping_generations_both_fire :
  let first := page_step (ClickGenerate first_env) (mkPage initial []) in
  let p := page_run overlapping_clicks (mkPage initial []) in
  isGenerating (world first) = false
  /\ in_flight p = []
  /\ isBeatReady (world p) = true
  /\ map payload (Transport_timeline (world p))
     = [(drum_track, kick_note, time kick_note);
        (drum_track, hat_note, time hat_note);
        (drum_track, clap_note, time clap_note);
        (bass_track, bass_note, time bass_note);
        (lead_track, lead_note, time lead_note)]
  /\ map (fun e => cb_session (ev_callback e)) (Transport_timeline (world p))
     = [0; 0; 0; 0; 1]%nat
  /\ synths_current (world p) = map (fun v => mkSynth v 1) synth_constants
  /\ disposed (world p) = []
  /\ map (fun c => (call_synth c, call_note c))
       (loop_pass (exec click_play (world p)) 0)
     = [(mkSynth drumSynth 0, Some "C2"); (mkSynth hatSynth 0, Some "F#2");
        (mkSynth snareSynth 0, None); (mkSynth bassSynth 0, Some "E2");
        (mkSynth melodySynth 1, Some "E4")].
Proof. vm_compute. repeat split; reflexivity. Qed.

(** X17.  When [Tone.start()] resolves and nothing comes in between, a
    click on Generate followed by the four settlements its run awaits
    leaves no run in flight and exactly the world of [generateBeat] taken
    as one step; the handler cut at its awaits and run through computes
    what the uncut handler computes. *)
Theorem uninterrupted_run_is_atomic (env : Environment) (w : World) :
  env_audio env = Fulfilled tt ->
  page_run (ClickGenerate env :: repeat (Settle 0) 4) (mkPage w [])
  = mkPage (exec (click_generate (env_fetched env) (env_Midi_new env)) w) []
  /\ generateBeat_run env w
     = generateBeat (env_fetched env) (env_Midi_new env) w.
Proof.
  intros Ha.
  assert (E : generateBeat_run env w
              = generateBeat (env_fetched env) (env_Midi_new env) w)
    by (rewrite generateBeat_run_exec, generateBeat_exec by exact Ha;
        reflexivity).
  split; [|exact E].
  cbn [page_run]. unfold page_step at 1. cbn [world in_flight].
  unfold exec at 1, click_generate. rewrite bind_gets.
  destruct (isGenerating w); [apply page_run_idle|].
  rewrite <- E. unfold generateBeat_run.
  rewrite generateBeat_begin_exec. cbn [app].
  rewrite page_run_alone by (cbn; lia).
  rewrite (bind_returned _ _ _ _ _ (generateBeat_begin_exec env w)).
  reflexivity.
Qed.

Lemma uninterrupted_run_is_atomic_witness :
  env_audio first_env = Fulfilled tt
  /\ page_run (ClickGenerate first_env :: repeat (Settle 0) 4)
       (mkPage demo_playing [])
     = mkPage (exec (click_generate (env_fetched first_env)
                       (env_Midi_new first_env)) demo_playing) [].
Proof.
  split; [reflexivity|].
  exact (proj1 (uninterrupted_run_is_atomic first_env demo_playing eq_refl)).
Defined.

(** X1.  A run of [generateBeat] that nothing interleaves with throws
    only when [Tone.start()] rejects, the await of line 54 being outside
    the [try]: it has then run [cleanupAudio] and nothing else, with no
    alert and with [isGenerating] and [isBeatReady] as they were.
    Otherwise, whatever the fetch, the body and the decoder do, it
    completes and leaves [isGenerating] false, [isPlaying] false and the
    transport stopped; [isBeatReady] ends true, with no alert raised,
    exactly when every step succeeded, and else ends false with exactly
    one alert raised. *)
Theorem generateBeat_run_settles (env : Environment) (w : World) :
  let w' := exec (generateBeat_run env) w in
  match env_audio env with
  | Rejected error =>
      generateBeat_run env w = (Thrown error, w')
      /\ w' = exec cleanupAudio w
      /\ alerts w' = alerts w
      /\ isGenerating w' = isGenerating w
      /\ isBeatReady w' = isBeatReady w
  | Fulfilled _ =>
      generateBeat_run env w = (Returned tt, w')
      /\ isGenerating w' = false
      /\ isPlaying w' = false
      /\ Transport_state w' = stopped
      /\ ((isBeatReady w' = true /\ alerts w' = alerts w
           /\ exists r b midi,
                generation_succeeds (env_fetched env) (env_Midi_new env)
                  r b midi)
          \/ (isBeatReady w' = false
              /\ (forall r b midi,
                    ~ generation_succeeds (env_fetched env) (env_Midi_new env)
                        r b midi)
              /\ exists error,
                   alerts w'
                   = (alerts w ++ [("Error: " ++ error)%string])%list))
  end.
Proof.
  intros w'. subst w'. destruct (env_audio env) as [[]|error] eqn:Ha.
  - assert (E : generateBeat_run env w
                = generateBeat (env_fetched env) (env_Midi_new env) w)
      by (rewrite generateBeat_run_exec, generateBeat_exec by exact Ha;
          reflexivity).
    unfold exec. rewrite E.
    exact (generateBeat_always_settles (env_fetched env) (env_Midi_new env) w).
  - assert (E : generateBeat_run env w = (Thrown error, cleaned w)).
    { unfold generateBeat_run.
      rewrite (bind_returned _ _ _ _ _ (generateBeat_begin_exec env w)).
      cbn [generateBeat_finish]. unfold bind.
      rewrite (resume_audio_rejected _ _ _ error _ Ha). reflexivity. }
    unfold exec. rewrite E, cleanupAudio_exec. cbn [snd].
    split; [reflexivity|]. split; [reflexivity|].
    destruct w; repeat split; reflexivity.
Qed.
